(** * karanofetch: the endpoint request builder of [mod.ts]

    A shallow embedding of [assertHasAllParams] and of [Fetcher.fetch],
    together with the parts of the JavaScript host they rely on
    ([String.prototype.match/includes/replace], the [in] operator on plain
    objects, the [URL] class, promises), and the properties of the
    request builder stated over that embedding.

    Conventions.
    - A JavaScript string is a [string]: the bytes of its UTF-8 form. All
      characters the code inspects ([:], [/], [$]) are ASCII, so searching
      bytes and searching code units find the same occurrences.
    - A plain object used as a record of strings ([Record<string, string>])
      is the list of its own enumerable entries, in [Object.entries] order.
    - The bound request function is a closure over one [URL] object that it
      mutates; its runs are written in a state-and-exception monad whose
      state holds that object and the log of transport calls. *)

From Stdlib Require Import String Ascii List Bool Arith Lia DecimalString.
From stdpp Require Import gmap strings list fin_maps.

Open Scope string_scope.
Open Scope list_scope.

(* Let [simpl] unfold string concatenation on a constructor. *)
#[local] Arguments String.append !s1 s2 : simpl nomatch.

(** ** Strings *)

Module JSString.

(** The double quote character, as a one-character string. *)
Definition dquote : string := String (ascii_of_nat 34) EmptyString.

(** [s.slice(1)] *)
Definition slice1 (s : string) : string :=
  match s with
  | EmptyString => EmptyString
  | String _ s' => s'
  end.

(** [strip_prefix pat s] is [Some rest] when [s = pat +:+ rest]. *)
Fixpoint strip_prefix (pat s : string) : option string :=
  match pat, s with
  | EmptyString, _ => Some s
  | String a pat', String b s' =>
      if Ascii.eqb a b then strip_prefix pat' s' else None
  | String _ _, EmptyString => None
  end.

(** The first occurrence of [pat] in [s] (the abstract operation
    StringIndexOf from position 0), given as the text before it and the
    text after it. *)
Fixpoint cut (pat s : string) : option (string * string) :=
  match strip_prefix pat s with
  | Some rest => Some (EmptyString, rest)
  | None =>
      match s with
      | EmptyString => None
      | String c s' =>
          match cut pat s' with
          | Some (before, after) => Some (String c before, after)
          | None => None
          end
      end
  end.

(** [s.includes(pat)] *)
Definition includes (s pat : string) : bool :=
  match cut pat s with Some _ => true | None => false end.

(** The abstract operation GetSubstitution for a string pattern (no
    captures): [$$] is a dollar sign, [$&] the matched text, [$`] the text
    before the match, [$'] the text after it; every other [$] stands for
    itself. *)
Fixpoint GetSubstitution (matched before after template : string) : string :=
  match template with
  | EmptyString => EmptyString
  | String c tl =>
      if Ascii.eqb c "$" then
        match tl with
        | String d rest =>
            if Ascii.eqb d "$" then
              String "$" (GetSubstitution matched before after rest)
            else if Ascii.eqb d "&" then
              matched +:+ GetSubstitution matched before after rest
            else if Ascii.eqb d "`" then
              before +:+ GetSubstitution matched before after rest
            else if Ascii.eqb d "'" then
              after +:+ GetSubstitution matched before after rest
            else String c (GetSubstitution matched before after tl)
        | EmptyString => String c EmptyString
        end
      else String c (GetSubstitution matched before after tl)
  end.

(** [s.replace(pat, template)] with a string pattern: the first occurrence
    only. *)
Definition replace (s pat template : string) : string :=
  match cut pat s with
  | Some (before, after) =>
      before +:+ GetSubstitution pat before after template +:+ after
  | None => s
  end.

(** [l.join(sep)] *)
Definition join (sep : string) (l : list string) : string :=
  String.concat sep l.

(** [s.match(re) || []] for the global regular expression [re] of
    [assertHasAllParams], a colon followed by the longest run of characters
    other than a slash: the matches, left to right. A match opens at a
    colon and runs up to, not including, the next slash or the end of the
    string. [cur] is the match that is open, if any. *)
Fixpoint match_from (cur : option string) (s : string) : list string :=
  match s with
  | EmptyString =>
      match cur with
      | Some m => [m]
      | None => []
      end
  | String c s' =>
      match cur with
      | Some m =>
          if Ascii.eqb c "/" then m :: match_from None s'
          else match_from (Some (m +:+ String c EmptyString)) s'
      | None =>
          if Ascii.eqb c ":" then match_from (Some ":") s'
          else match_from None s'
      end
  end.

Definition match_placeholders (s : string) : list string :=
  match_from None s.

End JSString.

(** ** Plain objects *)

(** The own enumerable entries of a plain object whose values are strings,
    in [Object.entries] order. *)
Definition JSRecord : Type := list (string * string).

Definition Object_entries (o : JSRecord) : list (string * string) := o.

Definition Object_keys (o : JSRecord) : list string := map fst o.

(** The property names every plain object inherits from
    [Object.prototype] under Deno, which removes the [__proto__]
    accessor. *)
Definition Object_prototype_keys : list string :=
  [ "constructor"; "__defineGetter__"; "__defineSetter__"; "hasOwnProperty";
    "__lookupGetter__"; "__lookupSetter__"; "isPrototypeOf";
    "propertyIsEnumerable"; "toString"; "valueOf"; "toLocaleString" ].

(** [key in o], for a plain object [o]: own properties, then the prototype
    chain. *)
Definition JS_in (key : string) (o : JSRecord) : bool :=
  bool_decide (key ∈ Object_keys o) || bool_decide (key ∈ Object_prototype_keys).

(** [new Set(l)], as the list of its elements in insertion order.
    [Set_add_all seen l] adds the elements of [l] to the set [seen]. *)
Fixpoint Set_add_all (seen l : list string) : list string :=
  match l with
  | [] => seen
  | x :: l' =>
      if bool_decide (x ∈ seen) then Set_add_all seen l'
      else Set_add_all (seen ++ [x]) l'
  end.

Definition Set_from (l : list string) : list string := Set_add_all [] l.

(** ** Exceptions *)

(** What a run can throw: the [Error] of the validation helper, the
    [TypeError] of the host (calling a transform that is not registered),
    or whatever a transform or the transport raises. *)
Inductive Exn (U : Type) : Type :=
  | Error (message : string)
  | TypeError
  | Raised (e : U).

Arguments Error {U} message.
Arguments TypeError {U}.
Arguments Raised {U} e.

(** ** The validation helper *)

Definition missing_message (missingParams : list string) (endpoint : string)
  : string :=
  JSString.dquote +:+ JSString.join ", " missingParams +:+ JSString.dquote
    +:+ " not found in endpoint: " +:+ endpoint.

(** The placeholder names of a pattern, duplicates removed, in order of
    first occurrence (the [keys] of [assertHasAllParams]), and those of
    them that the [in] test does not find in the mapping (its
    [missingParams]). *)
Definition placeholders (endpoint : string) : list string :=
  let matches := JSString.match_placeholders endpoint in
  Set_from (map JSString.slice1 matches).

Definition missing_params (endpoint : string) (params : JSRecord)
  : list string :=
  List.filter (fun key => negb (JS_in key params)) (placeholders endpoint).

Definition assertHasAllParams {U} (endpoint : string) (params : JSRecord)
  : Exn U + unit :=
  let matches := JSString.match_placeholders endpoint in
  let keys := Set_from (map JSString.slice1 matches) in
  let missingParams :=
    List.filter (fun key => negb (JS_in key params)) keys in
  if Nat.ltb 0 (length missingParams)
  then inl (Error (missing_message missingParams endpoint))
  else inr tt.

(** ** The host's [URL] class *)

(** A URL with an http or https scheme. [prefix] is the part of its
    serialisation before the path (scheme, credentials, host, port);
    [pathname] is the serialised path; [searchParams] is the list behind
    the [URLSearchParams] object. The patterns handled below have no
    fragment. *)
Module URL.

Record t : Type := mk {
  prefix : string;
  pathname : string;
  searchParams : list (string * string)
}.

Definition code (c : ascii) : nat := nat_of_ascii c.

Definition is_tab_or_newline (c : ascii) : bool :=
  (code c =? 9)%nat || (code c =? 10)%nat || (code c =? 13)%nat.

Definition is_c0_or_space (c : ascii) : bool := (code c <=? 32)%nat.

Definition is_slash (c : ascii) : bool := Ascii.eqb c "/" || Ascii.eqb c "092".

Fixpoint remove_tab_newline (s : string) : string :=
  match s with
  | EmptyString => EmptyString
  | String c s' =>
      if is_tab_or_newline c then remove_tab_newline s'
      else String c (remove_tab_newline s')
  end.

Fixpoint trim_start (s : string) : string :=
  match s with
  | EmptyString => EmptyString
  | String c s' => if is_c0_or_space c then trim_start s' else s
  end.

Fixpoint trim_end (s : string) : string :=
  match s with
  | EmptyString => EmptyString
  | String c s' =>
      match trim_end s' with
      | EmptyString => if is_c0_or_space c then EmptyString else String c EmptyString
      | t => String c t
      end
  end.

(** The path percent-encode set of the hosts the code runs on: C0
    controls, everything above [~], and space, double quote, [#], [<],
    [>], [?], backquote, [{], [}]. *)
Definition in_path_percent_encode_set (c : ascii) : bool :=
  let n := code c in
  (n <=? 31)%nat || (126 <? n)%nat
  || bool_decide (n ∈ [32; 34; 35; 60; 62; 63; 96; 123; 125]%nat).

Definition hex_digit (n : nat) : ascii :=
  if (n <? 10)%nat then ascii_of_nat (48 + n) else ascii_of_nat (55 + n).

Definition percent_encode (c : ascii) : string :=
  if in_path_percent_encode_set c
  then String "%" (String (hex_digit (code c / 16))
                     (String (hex_digit (code c mod 16)) EmptyString))
  else String c EmptyString.

Definition is_single_dot (segment : string) : bool :=
  bool_decide (segment ∈ ["."; "%2e"; "%2E"]).

Definition is_double_dot (segment : string) : bool :=
  bool_decide (segment ∈ [".."; ".%2e"; ".%2E"; "%2e."; "%2E.";
                          "%2e%2e"; "%2e%2E"; "%2E%2e"; "%2E%2E"]).

(** The end of a path segment in the path state: [buffer] joins [path],
    unless it is a dot segment. [at_slash] tells whether the segment ends
    at a slash rather than at the end of the input. *)
Definition close_segment (path : list string) (buffer : string)
    (at_slash : bool) : list string :=
  if is_double_dot buffer then
    if at_slash then removelast path else removelast path ++ [EmptyString]
  else if is_single_dot buffer then
    if at_slash then path else path ++ [EmptyString]
  else path ++ [buffer].

(** The path state of the URL parser for a special scheme, on input
    without [?] and [#] terminators (the state a [pathname] setter runs,
    where these two characters are percent-encoded like any other). *)
Fixpoint path_state (path : list string) (buffer input : string)
  : list string :=
  match input with
  | EmptyString => close_segment path buffer false
  | String c rest =>
      if is_slash c then path_state (close_segment path buffer true) EmptyString rest
      else path_state path (buffer +:+ percent_encode c) rest
  end.

(** The path start state: one leading slash is skipped. *)
Definition path_start_state (input : string) : list string :=
  match input with
  | String c rest =>
      if is_slash c then path_state [] EmptyString rest
      else path_state [] EmptyString input
  | EmptyString => path_state [] EmptyString EmptyString
  end.

Fixpoint serialize_path (path : list string) : string :=
  match path with
  | [] => EmptyString
  | segment :: path' => "/" +:+ segment +:+ serialize_path path'
  end.

(** [url.pathname = value] *)
Definition set_pathname (url : t) (value : string) : t :=
  mk (prefix url)
     (serialize_path (path_start_state (remove_tab_newline value)))
     (searchParams url).

(** [url.searchParams.append(name, value)] *)
Definition searchParams_append (url : t) (name value : string) : t :=
  mk (prefix url) (pathname url) (searchParams url ++ [(name, value)]).

Definition has_query_or_fragment (s : string) : bool :=
  JSString.includes s "?" || JSString.includes s "#".

(** [new URL(input, base)] for an http(s) [base] and a path-absolute
    [input]: one leading slash, then neither a second slash (which would
    open an authority) nor, anywhere, a query or a fragment. The result
    keeps the prefix of [base] and drops its path and query. Other
    references (with a scheme or an authority of their own, relative
    paths, queries, fragments) are outside the patterns of the registry
    and get no result here. *)
Definition new (input : string) (base : t) : option t :=
  let input := remove_tab_newline (trim_end (trim_start input)) in
  match input with
  | String c rest =>
      if negb (is_slash c) then None
      else if match rest with String d _ => is_slash d | EmptyString => false end
      then None
      else if has_query_or_fragment input then None
      else Some (mk (prefix base)
                    (serialize_path (path_state [] EmptyString rest)) [])
  | EmptyString => None
  end.

End URL.

(** ** The request builder *)

(** An argument that may be absent: [undefined], [null] or a value. *)
Inductive Nullable (A : Type) : Type :=
  | JsUndefined
  | JsNull
  | JsValue (a : A).

Arguments JsUndefined {A}.
Arguments JsNull {A}.
Arguments JsValue {A} a.

Section Fetcher.

(** The types the registry is generic in: what callers pass as [param] and
    [body], the payload type [BodyInit], the transport's [Response], what
    [response] transforms produce, what transforms and the transport may
    raise, and the values of the option fields this code never looks at
    (headers, signal, client, ...). *)
Context {ParamArg BodyArg BodyInit Response Result U Opaque : Type}.

(** A settled promise. *)
Inductive Promise (A : Type) : Type :=
  | Fulfilled (a : A)
  | Rejected (e : Exn U).

Arguments Fulfilled {A} a.
Arguments Rejected {A} e.

(** [p.then(f)], for [f] returning a promise. *)
Definition Promise_then {A B} (p : Promise A) (f : A -> Promise B)
  : Promise B :=
  match p with
  | Fulfilled a => f a
  | Rejected e => Rejected e
  end.

Record AbstractApi : Type := {
  param : option (ParamArg -> Exn U + JSRecord);
  body : option (BodyArg -> Exn U + BodyInit);
  response : Response -> Promise Result
}.

(** The value of a field of the second argument of the transport. *)
Inductive Value : Type :=
  | VUndefined
  | VString (s : string)
  | VBody (b : BodyInit)
  | VOpaque (x : Opaque).

Record FectherInit : Type := {
  baseUrl : URL.t;
  api : gmap string (gmap string AbstractApi)
}.

(** One call of the transport: the URL as it is at the call, and the
    options object. *)
Definition Call : Type := URL.t * gmap string Value.

(** The transport, [globalThis.fetch]. *)
Variable transport : URL.t -> gmap string Value -> Promise Response.

(** *** Runs of a bound request function *)

(** The state a run acts on: the [URL] object bound to [url] in the
    closure, and the calls made to the transport so far. A thrown exception
    leaves the state as it is at the throw. *)
Record World : Type := {
  url : URL.t;
  calls : list Call
}.

Definition M (A : Type) : Type := World -> (Exn U + A) * World.

Definition ret {A} (a : A) : M A := fun w => (inr a, w).

Definition bind {A B} (m : M A) (k : A -> M B) : M B :=
  fun w =>
    match m w with
    | (inr a, w') => k a w'
    | (inl e, w') => (inl e, w')
    end.

Definition throw {A} (e : Exn U) : M A := fun w => (inl e, w).

Definition lift {A} (r : Exn U + A) : M A := fun w => (r, w).

Definition get_url : M URL.t := fun w => (inr (url w), w).

Definition set_url (u : URL.t) : M unit :=
  fun w => (inr tt, {| url := u; calls := calls w |}).

(** [fetch(url, init)] *)
Definition call_transport (init : gmap string Value) : M (Promise Response) :=
  fun w =>
    (inr (transport (url w) init),
     {| url := url w; calls := calls w ++ [(url w, init)] |}).

Notation "'let!' x := m 'in' k" := (bind m (fun x => k))
  (at level 10, x name, m at level 200, k at level 200, only parsing).

(** [l.forEach(f)] *)
Fixpoint forEach {A} (l : list A) (f : A -> M unit) : M unit :=
  match l with
  | [] => ret tt
  | x :: l' => let! _ := f x in forEach l' f
  end.

(** [f!(x)]: calling a transform that may be absent. *)
Definition call_non_null {A B} (f : option (A -> Exn U + B)) (x : A) : M B :=
  match f with
  | Some f => lift (f x)
  | None => throw TypeError
  end.

(** [this.init.api[endpoint][method]]. The type of [fetch] admits only
    registered pairs; reading a field of a missing entry is a
    [TypeError]. *)
Definition api_entry (self : FectherInit) (endpoint method : string)
  : M AbstractApi :=
  match api self !! endpoint with
  | Some methods =>
      match methods !! method with
      | Some entry => ret entry
      | None => throw TypeError
      end
  | None => throw TypeError
  end.

(** The callback of [Object.entries(param).forEach]. *)
Definition substitute (entry : string * string) : M unit :=
  let '(key, value) := entry in
  let! u := get_url in
  if JSString.includes (URL.pathname u) (":" +:+ key)
  then set_url (URL.set_pathname u
                  (JSString.replace (URL.pathname u) (":" +:+ key) value))
  else set_url (URL.searchParams_append u key value).

Record Args : Type := {
  arg_param : option ParamArg;
  arg_body : Nullable BodyArg
}.

(** The arrow function that [fetch] returns. [arg_param] is [None] when
    [args.param] is absent (what callers pass there is an object, hence
    truthy); [options] is [None] when the second argument is omitted. *)
Definition request (self : FectherInit) (endpoint method : string)
    (args : Args) (options : option (gmap string Value))
  : M (Promise Result) :=
  let options := default ∅ options in
  let! _ :=
    match arg_param args with
    | Some p =>
        let! entry := api_entry self endpoint method in
        let! prm := call_non_null (param entry) p in
        let! _ := lift (assertHasAllParams endpoint prm) in
        forEach (Object_entries prm) substitute
    | None => lift (assertHasAllParams endpoint [])
    end in
  let! payload :=
    match arg_body args with
    | JsValue b =>
        let! entry := api_entry self endpoint method in
        let! x := call_non_null (body entry) b in
        ret (VBody x)
    | _ => ret VUndefined
    end in
  let! p := call_transport
              (<["body" := payload]> (<["method" := VString method]> options)) in
  let! entry := api_entry self endpoint method in
  ret (Promise_then p (response entry)).

(** *** Bound request functions *)

(** The closure [fetch] returns: the pair it was made for and the [URL]
    object it captured. *)
Record BoundFetch : Type := {
  bf_endpoint : string;
  bf_method : string;
  bf_url : URL.t
}.

(** [fetcher.fetch(endpoint, method)] *)
Definition fetch (self : FectherInit) (endpoint method : string)
  : option BoundFetch :=
  match URL.new endpoint (baseUrl self) with
  | Some u => Some {| bf_endpoint := endpoint; bf_method := method; bf_url := u |}
  | None => None
  end.

(** What one invocation of a bound request function leaves behind: what it
    returned or threw, the closure with its [URL] object as the invocation
    left it, and the transport log. *)
Record Outcome : Type := {
  completion : Exn U + Promise Result;
  closure : BoundFetch;
  log : list Call
}.

(** [f(args, options)], with [log0] the transport calls made before. *)
Definition invoke (self : FectherInit) (f : BoundFetch) (args : Args)
    (options : option (gmap string Value)) (log0 : list Call) : Outcome :=
  let '(r, w) :=
    request self (bf_endpoint f) (bf_method f) args options
      {| url := bf_url f; calls := log0 |} in
  {| completion := r;
     closure := {| bf_endpoint := bf_endpoint f; bf_method := bf_method f;
                   bf_url := url w |};
     log := calls w |}.

(** *** Notions used to state the properties *)

(** The bundle registered for a pair. *)
Definition registered (self : FectherInit) (endpoint method : string)
    (entry : AbstractApi) : Prop :=
  exists methods,
    api self !! endpoint = Some methods /\ methods !! method = Some entry.

(** [m] is the mapping an invocation resolves [args.param] to: the empty
    mapping when no [param] is passed, else what the registered [param]
    transform returns. *)
Definition resolves (self : FectherInit) (endpoint method : string)
    (p : option ParamArg) (m : JSRecord) : Prop :=
  match p with
  | None => m = []
  | Some p =>
      exists entry g,
        registered self endpoint method entry /\
        param entry = Some g /\ g p = inr m
  end.

(** [v] is the [body] an invocation computes from [args.body]. *)
Definition computes_body (self : FectherInit) (endpoint method : string)
    (b : Nullable BodyArg) (v : Value) : Prop :=
  match b with
  | JsValue b =>
      exists entry g x,
        registered self endpoint method entry /\
        body entry = Some g /\ g b = inr x /\ v = VBody x
  | _ => v = VUndefined
  end.

(** The options object [{ ...options, method, body }]. *)
Definition request_init (method : string) (payload : Value)
    (options : option (gmap string Value)) : gmap string Value :=
  <["body" := payload]> (<["method" := VString method]> (default ∅ options)).

(** The effect of [substitute] on the [URL] object. *)
Definition substitute_url (u : URL.t) (entry : string * string) : URL.t :=
  if JSString.includes (URL.pathname u) (":" +:+ fst entry)
  then URL.set_pathname u
         (JSString.replace (URL.pathname u) (":" +:+ fst entry) (snd entry))
  else URL.searchParams_append u (fst entry) (snd entry).

End Fetcher.

Arguments Fulfilled {U A} a.
Arguments Rejected {U A} e.
Arguments VUndefined {BodyInit Opaque}.
Arguments VString {BodyInit Opaque} s.
Arguments VBody {BodyInit Opaque} b.
Arguments VOpaque {BodyInit Opaque} x.

(** ** The registry of the repository's test *)

Module TestRegistry.

(** What the test passes as [param] and [body]: object literals whose
    values are strings or numbers. *)
Inductive Prim : Type :=
  | Str (s : string)
  | Num (n : nat).

Definition template (v : Prim) : string :=
  match v with
  | Str s => s
  | Num n => NilEmpty.string_of_uint (Nat.to_uint n)
  end.

Definition Obj : Type := list (string * Prim).

(** [JSON.stringify] on an object of strings and numbers whose text needs
    no escape. *)
Definition JSON_stringify (o : Obj) : string :=
  let member (kv : string * Prim) :=
    JSString.dquote +:+ fst kv +:+ JSString.dquote +:+ ":" +:+
    match snd kv with
    | Str s => JSString.dquote +:+ s +:+ JSString.dquote
    | Num n => template (Num n)
    end in
  "{" +:+ JSString.join "," (map member o) +:+ "}".

Inductive Res : Type :=
  | Text (s : string)
  | Boolean (b : bool).

Definition Api : Type :=
  @AbstractApi Obj Obj string string Res Empty_set.

(** [{ ...param }]: every field in place, as the string the code later
    uses it as. *)
Definition spread (p : Obj) : JSRecord :=
  map (fun kv => (fst kv, template (snd kv))) p.

Definition spread_strings (p : Obj) : Exn Empty_set + JSRecord :=
  inr (spread p).

(** [param.k] *)
Fixpoint get (p : Obj) (k : string) : option Prim :=
  match p with
  | [] => None
  | (k', x) :: p' => if String.eqb k' k then Some x else get p' k
  end.

(** [`${x}`] for a field that may be missing. *)
Definition template_field (x : option Prim) : string :=
  match x with
  | Some x => template x
  | None => "undefined"
  end.

(** [{ ...o, k: v }]: the field keeps its place when [o] has it, and
    comes last otherwise. *)
Fixpoint set (o : JSRecord) (k v : string) : JSRecord :=
  match o with
  | [] => [(k, v)]
  | (k', v') :: o' =>
      if String.eqb k' k then (k, v) :: o' else (k', v') :: set o' k v
  end.

(** [(param) => ({ ...param, v: `${param.v}` })] *)
Definition users_id_GET_param (p : Obj) : Exn Empty_set + JSRecord :=
  inr (set (spread p) "v" (template_field (get p "v"))).

(** [(param) => ({ id: `${param.id}` })] *)
Definition users_id_online_GET_param (p : Obj) : Exn Empty_set + JSRecord :=
  inr [("id", template_field (get p "id"))].

Definition text (r : string) : @Promise Empty_set Res := Fulfilled (Text r).

Definition users_id_GET : Api :=
  {| param := Some users_id_GET_param; body := None; response := text |}.

Definition users_id_POST : Api :=
  {| param := Some spread_strings;
     body := Some (fun b => inr (JSON_stringify b));
     response := text |}.

Definition users_id_online_GET : Api :=
  {| param := Some users_id_online_GET_param; body := None;
     response := fun r => Fulfilled (Boolean (String.eqb r "ok")) |}.

(** A bundle whose [param] transform is [(param) => ({ ...param })], and
    that has no [body] transform. *)
Definition spread_GET : Api :=
  {| param := Some spread_strings; body := None; response := text |}.

Definition base : URL.t := URL.mk "https://api.example.com" "/" [].

Definition fetcher : @FectherInit Obj Obj string string Res Empty_set :=
  {| baseUrl := base;
     api := <["/users/:id" := <["GET" := users_id_GET]> (<["POST" := users_id_POST]> ∅)]>
            (<["/users/:id/online" := <["GET" := users_id_online_GET]> ∅]> ∅) |}.

(** The stubs the test installs in place of [globalThis.fetch]. *)
Definition stub (text : string) (u : URL.t) (init : gmap string (@Value string Empty_set))
  : @Promise Empty_set string := Fulfilled text.

Definition no_options : option (gmap string (@Value string Empty_set)) := None.

(** A registry with one pattern, under [GET], whose [param] transform
    passes the fields on as strings. *)
Definition route (endpoint : string)
  : @FectherInit Obj Obj string string Res Empty_set :=
  {| baseUrl := base;
     api := <[endpoint := <["GET" := spread_GET]> ∅]> ∅ |}.

(** The same, for a pattern registered without a [param] transform. *)
Definition plain_route (endpoint : string)
  : @FectherInit Obj Obj string string Res Empty_set :=
  {| baseUrl := base;
     api := <[endpoint :=
                <["GET" := {| param := None; body := None; response := text |}]> ∅]> ∅ |}.

Definition args (p : option Obj) (b : Nullable Obj) : @Args Obj Obj :=
  {| arg_param := p; arg_body := b |}.

(** Options in which the caller put a [method] and a [body] of their
    own, next to a field the builder has no say in. *)
Definition meddling_options : option (gmap string (@Value string Empty_set)) :=
  Some (<["method" := VString "DELETE"]>
          (<["body" := VBody "mine"]> (<["cache" := VString "no-store"]> ∅))).

(** What [fetch] returns for a pattern that the URL parser leaves as it
    is. *)
Definition bound (endpoint method : string) : BoundFetch :=
  {| bf_endpoint := endpoint; bf_method := method;
     bf_url := URL.mk "https://api.example.com" endpoint [] |}.

End TestRegistry.

(** ** Notions on patterns *)

(** Whether a colon occurs in [s] after its last slash: a text that ends
    inside a placeholder. [seen] tells whether a colon is pending at the
    start of [s]. *)
Fixpoint colon_since_slash (seen : bool) (s : string) : bool :=
  match s with
  | EmptyString => seen
  | String c s' =>
      if Ascii.eqb c "/" then colon_since_slash false s'
      else colon_since_slash (seen || Ascii.eqb c ":") s'
  end.

(** [s] is empty or begins with a slash: what follows the end of a path
    segment. *)
Definition at_segment_end (s : string) : bool :=
  match s with
  | EmptyString => true
  | String c _ => Ascii.eqb c "/"
  end.

(** No dollar sign occurs in [s]: a replacement template without special
    patterns. *)
Fixpoint dollar_free (s : string) : bool :=
  match s with
  | EmptyString => true
  | String c s' => negb (Ascii.eqb c "$") && dollar_free s'
  end.

(** A character the path state copies as it is: not in the path
    percent-encode set (nor, then, a tab or a newline), and not a
    backslash. *)
Definition plain_char (c : ascii) : bool :=
  negb (URL.in_path_percent_encode_set c) && negb (Ascii.eqb c "092").

Definition is_dot_segment (segment : string) : bool :=
  URL.is_single_dot segment || URL.is_double_dot segment.

(** [buffer +:+ s] is text the path state leaves as it is when [buffer] is
    the segment under way: plain characters and slashes, and no dot
    segment. *)
Fixpoint plain_from (buffer s : string) : bool :=
  match s with
  | EmptyString => negb (is_dot_segment buffer)
  | String c s' =>
      if Ascii.eqb c "/" then negb (is_dot_segment buffer) && plain_from EmptyString s'
      else plain_char c && plain_from (buffer +:+ String c EmptyString) s'
  end.

(** ** The type-level placeholders *)

(** The conditional types [ExtractParams] and [HasAllParams] compute on
    string literal types. A union of string literal types is the list of
    its members; matching a literal against a template type with [infer]
    positions gives every position but the last the shortest text up to
    the next occurrence of the literal part that follows it, and the last
    position the rest. (The compiler gives up on a pattern with more
    placeholders than its instantiation depth allows; that limit is not
    part of the types.) *)

(** [s extends `${infer _Start}:${infer Param}/${infer Rest}`] *)
Definition infer_Start_Param_Rest (s : string)
  : option (string * string * string) :=
  match JSString.cut ":" s with
  | Some (_Start, after) =>
      match JSString.cut "/" after with
      | Some (Param, Rest) => Some (_Start, Param, Rest)
      | None => None
      end
  | None => None
  end.

(** [s extends `${infer _Start}:${infer Param}`] *)
Definition infer_Start_Param (s : string) : option (string * string) :=
  JSString.cut ":" s.

(** [ExtractParams<S>], unfolded at most [depth] times. *)
Fixpoint ExtractParams_at (depth : nat) (s : string) : list string :=
  match depth with
  | O => []
  | S depth' =>
      match infer_Start_Param_Rest s with
      | Some (_, Param, Rest) => Param :: ExtractParams_at depth' Rest
      | None =>
          match infer_Start_Param s with
          | Some (_, Param) => [Param]
          | None => []
          end
      end
  end.

(** [ExtractParams<S>]. Every unfolding drops at least the colon and the
    slash it matched, so the length of [s], plus one for the last look at
    what is left, bounds the unfoldings. *)
Definition ExtractParams (s : string) : list string :=
  ExtractParams_at (S (String.length s)) s.

(** [HasAllParams<S, P>] is [P] rather than [never]: every member of
    [ExtractParams<S>] is a member of [keyof P]. *)
Definition HasAllParams (s : string) (keyof_P : list string) : bool :=
  forallb (fun k => bool_decide (k ∈ keyof_P)) (ExtractParams s).

(** ** More notions on strings *)

(** Every character of [s] satisfies [P]. *)
Fixpoint string_forall (P : ascii -> bool) (s : string) : bool :=
  match s with
  | EmptyString => true
  | String c s' => P c && string_forall P s'
  end.

(** No colon occurs in [s]. *)
Definition colon_free (s : string) : bool :=
  string_forall (fun c => negb (Ascii.eqb c ":")) s.

(** [s] has no character of the path percent-encode set (hence no space,
    [?] or [#]) and no backslash. *)
Definition percent_encoded (s : string) : bool :=
  string_forall plain_char s.

(** Every segment of a parsed path is percent-encoded text. *)
Definition encoded_segments (path : list string) : Prop :=
  Forall (fun segment => percent_encoded segment = true) path.

(** * Properties *)

(** ** Strings *)

Module JSStringFacts.
Import JSString.

Lemma app_nil_r (s : string) : s +:+ EmptyString = s.
Proof. induction s as [|c s IH]; simpl; [reflexivity | now rewrite IH]. Qed.

Lemma app_assoc (a b c : string) : (a +:+ b) +:+ c = a +:+ (b +:+ c).
Proof. induction a as [|x a IH]; simpl; [reflexivity | now rewrite IH]. Qed.

Lemma length_app (a b : string) :
  String.length (a +:+ b) = String.length a + String.length b.
Proof. induction a as [|x a IH]; simpl; [reflexivity | now rewrite IH]. Qed.

(** Two splits of one string at the same position are the same split. *)
Lemma app_eq_length (a a' b b' : string) :
  a +:+ b = a' +:+ b' -> String.length a = String.length a' ->
  a = a' /\ b = b'.
Proof.
  revert a'. induction a as [|x a IH]; intros [|x' a'] E L; simpl in *;
    try discriminate; [now split |].
  injection E as -> E. injection L as L.
  destruct (IH _ E L) as [-> ->]. now split.
Qed.

Lemma strip_prefix_app (pat rest : string) :
  strip_prefix pat (pat +:+ rest) = Some rest.
Proof.
  induction pat as [|c pat IH]; simpl; [now destruct rest |].
  now rewrite Ascii.eqb_refl.
Qed.

Lemma strip_prefix_Some (pat s rest : string) :
  strip_prefix pat s = Some rest -> s = pat +:+ rest.
Proof.
  revert s. induction pat as [|c pat IH]; intros s H; simpl in *.
  - destruct s; congruence.
  - destruct s as [|d s]; [discriminate |].
    destruct (Ascii.eqb_spec c d) as [->|]; [|discriminate].
    now rewrite (IH _ H).
Qed.

(** [cut] splits the string around an occurrence of the pattern... *)
Lemma cut_Some (pat s before after : string) :
  cut pat s = Some (before, after) -> s = before +:+ pat +:+ after.
Proof.
  revert before. induction s as [|c s IH]; intros before H; simpl in H.
  - destruct (strip_prefix pat EmptyString) as [rest|] eqn:P; [|discriminate].
    injection H as <- <-. simpl. now apply strip_prefix_Some.
  - destruct (strip_prefix pat (String c s)) as [rest|] eqn:P.
    + injection H as <- <-. simpl. now apply strip_prefix_Some.
    + destruct (cut pat s) as [[b a]|]; [|discriminate].
      injection H as <- <-. simpl. now rewrite (IH b).
Qed.

(** ... and no occurrence starts further left. *)
Lemma cut_first (pat s before after : string) :
  cut pat s = Some (before, after) ->
  forall before' after',
    s = before' +:+ pat +:+ after' ->
    String.length before <= String.length before'.
Proof.
  revert before. induction s as [|c s IH]; intros before H b' a' E; simpl in H.
  - destruct (strip_prefix pat EmptyString); [|discriminate].
    injection H as <- <-. simpl. lia.
  - destruct (strip_prefix pat (String c s)) as [rest|] eqn:P.
    + injection H as <- <-. simpl. lia.
    + destruct (cut pat s) as [[b a]|] eqn:C; [|discriminate].
      injection H as <- <-.
      destruct b' as [|d b'].
      * simpl in E. rewrite E, strip_prefix_app in P. discriminate.
      * simpl in E. injection E as -> E. simpl.
        specialize (IH _ eq_refl _ _ E). lia.
Qed.

Lemma cut_None (pat s : string) :
  cut pat s = None ->
  forall before after, s <> before +:+ pat +:+ after.
Proof.
  induction s as [|c s IH]; intros H b a E; simpl in H.
  - destruct (strip_prefix pat EmptyString) eqn:P; [discriminate |].
    destruct b; [|discriminate]. simpl in E.
    rewrite E, strip_prefix_app in P. discriminate.
  - destruct (strip_prefix pat (String c s)) eqn:P; [discriminate |].
    destruct (cut pat s) as [[b0 a0]|] eqn:C; [discriminate |].
    destruct b as [|d b].
    + simpl in E. rewrite E, strip_prefix_app in P. discriminate.
    + simpl in E. injection E as -> E. now apply (IH eq_refl b a).
Qed.

(** The leftmost occurrence is the one [cut] finds. *)
Lemma cut_leftmost (pat before after : string) :
  (forall before' after',
      before +:+ pat +:+ after = before' +:+ pat +:+ after' ->
      String.length before <= String.length before') ->
  cut pat (before +:+ pat +:+ after) = Some (before, after).
Proof.
  intros Hmin.
  destruct (cut pat (before +:+ pat +:+ after)) as [[b a]|] eqn:C.
  - pose proof (cut_Some _ _ _ _ C) as E.
    pose proof (cut_first _ _ _ _ C before after eq_refl) as L1.
    pose proof (Hmin _ _ E) as L2.
    destruct (app_eq_length _ _ _ _ E ltac:(lia)) as [-> E'].
    apply String.app_inj in E'. now subst.
  - exfalso. now apply (cut_None _ _ C before after).
Qed.

Lemma includes_true (s pat : string) :
  includes s pat = true <-> exists before after, s = before +:+ pat +:+ after.
Proof.
  unfold includes. split.
  - destruct (cut pat s) as [[b a]|] eqn:C; [|discriminate].
    intros _. exists b, a. now apply cut_Some.
  - intros (b & a & E). destruct (cut pat s) eqn:C; [reflexivity |].
    exfalso. now apply (cut_None _ _ C b a).
Qed.

(** A template without a dollar sign stands for itself. *)
Lemma GetSubstitution_dollar_free (matched before after template : string) :
  dollar_free template = true ->
  GetSubstitution matched before after template = template.
Proof.
  induction template as [|c t IH]; simpl; [reflexivity |].
  intros H. apply andb_prop in H as [H1 H2].
  destruct (Ascii.eqb c "$"); [discriminate |]. now rewrite IH.
Qed.

End JSStringFacts.

(** ** Sets and the validation helper *)

Lemma Set_add_all_elem (x : string) (seen l : list string) :
  x ∈ Set_add_all seen l <-> x ∈ seen \/ x ∈ l.
Proof.
  revert seen. induction l as [|y l IH]; intros seen; simpl.
  - rewrite elem_of_nil. tauto.
  - case_bool_decide as Hy; rewrite IH, elem_of_cons.
    + split; [tauto |]. intros [?|[->|?]]; tauto.
    + rewrite elem_of_app, list_elem_of_singleton. tauto.
Qed.

Lemma Set_add_all_NoDup (seen l : list string) :
  NoDup seen -> NoDup (Set_add_all seen l).
Proof.
  revert seen. induction l as [|y l IH]; intros seen H; simpl; [assumption |].
  case_bool_decide as Hy; apply IH; [assumption |].
  apply NoDup_app. split; [assumption |]. split.
  - intros z Hz Hz'. apply list_elem_of_singleton in Hz'. now subst.
  - apply NoDup_singleton.
Qed.

Lemma Set_from_elem (x : string) (l : list string) : x ∈ Set_from l <-> x ∈ l.
Proof. unfold Set_from. rewrite Set_add_all_elem, elem_of_nil. tauto. Qed.

Lemma Set_from_NoDup (l : list string) : NoDup (Set_from l).
Proof. apply Set_add_all_NoDup, NoDup_nil_2. Qed.

(** The names the error lists: the placeholders the [in] test rejects,
    each once. *)
Lemma missing_params_elem (endpoint : string) (params : JSRecord) (k : string) :
  k ∈ missing_params endpoint params <->
  k ∈ placeholders endpoint /\ JS_in k params = false.
Proof.
  unfold missing_params. rewrite !list_elem_of_In, filter_In.
  now rewrite negb_true_iff.
Qed.

Lemma missing_params_NoDup (endpoint : string) (params : JSRecord) :
  NoDup (missing_params endpoint params).
Proof.
  unfold missing_params. apply NoDup_ListNoDup, List.NoDup_filter.
  apply NoDup_ListNoDup, Set_from_NoDup.
Qed.

(** [key in params] holds for own keys and for the names inherited from
    [Object.prototype]. *)
Lemma JS_in_true (k : string) (params : JSRecord) :
  JS_in k params = true <-> k ∈ Object_keys params \/ k ∈ Object_prototype_keys.
Proof.
  unfold JS_in. rewrite orb_true_iff, !bool_decide_eq_true. tauto.
Qed.

(** The helper throws exactly when the list of missing names is not
    empty, and then with the message built from that list. *)
Lemma assertHasAllParams_cases {U} (endpoint : string) (params : JSRecord) :
  (missing_params endpoint params = [] /\
   @assertHasAllParams U endpoint params = inr tt) \/
  (missing_params endpoint params <> [] /\
   @assertHasAllParams U endpoint params =
     inl (Error (missing_message (missing_params endpoint params) endpoint))).
Proof.
  unfold assertHasAllParams.
  change (List.filter _ _) with (missing_params endpoint params).
  destruct (missing_params endpoint params) as [|k l]; simpl.
  - left. now split.
  - right. now split.
Qed.

Lemma assertHasAllParams_passes {U} (endpoint : string) (params : JSRecord) :
  @assertHasAllParams U endpoint params = inr tt <->
  forall k, k ∈ placeholders endpoint -> JS_in k params = true.
Proof.
  destruct (@assertHasAllParams_cases U endpoint params) as [[E ->]|[E ->]].
  - split; [|reflexivity]. intros _ k Hk.
    destruct (JS_in k params) eqn:J; [reflexivity |].
    assert (k ∈ missing_params endpoint params) as Hm
      by now apply missing_params_elem.
    rewrite E in Hm. now apply elem_of_nil in Hm.
  - split; [discriminate |]. intros H. exfalso.
    destruct (missing_params endpoint params) as [|k l] eqn:M; [congruence |].
    assert (k ∈ missing_params endpoint params) as Hm by (rewrite M; left).
    apply missing_params_elem in Hm as [Hk J]. rewrite (H k Hk) in J.
    discriminate.
Qed.

(** For a pattern none of whose placeholders is named like a property of
    [Object.prototype], validation is coverage by the keys of the mapping,
    and the error lists the placeholders that are not keys. *)
Lemma assertHasAllParams_own_keys {U} (endpoint : string) (params : JSRecord) :
  (forall k, k ∈ placeholders endpoint -> k ∉ Object_prototype_keys) ->
  (@assertHasAllParams U endpoint params = inr tt <->
   forall k, k ∈ placeholders endpoint -> k ∈ Object_keys params) /\
  (forall k, k ∈ missing_params endpoint params <->
             k ∈ placeholders endpoint /\ k ∉ Object_keys params).
Proof.
  intros Hown.
  assert (forall k, k ∈ placeholders endpoint ->
                    (JS_in k params = true <-> k ∈ Object_keys params)) as Hin.
  { intros k Hk. rewrite JS_in_true. specialize (Hown k Hk). tauto. }
  split.
  - rewrite assertHasAllParams_passes. split; intros H k Hk.
    + now apply Hin, H.
    + now apply Hin, H.
  - intros k. rewrite missing_params_elem. split; intros [Hk H].
    + split; [assumption |]. intros Hkey. apply (Hin k Hk) in Hkey. congruence.
    + split; [assumption |]. destruct (JS_in k params) eqn:J; [|reflexivity].
      exfalso. now apply H, Hin.
Qed.

(** ** Placeholders of a pattern *)

(** Scanning a text that does not end inside a placeholder closes every
    match it opens: the scan of what follows starts afresh. *)
Lemma match_from_app (pre : string) :
  forall cur seen,
    (seen = false -> cur = None) ->
    colon_since_slash seen pre = false ->
    exists closed, forall s,
      JSString.match_from cur (pre +:+ s) = closed ++ JSString.match_from None s.
Proof.
  induction pre as [|c pre IH]; intros cur seen Hcur H; simpl in *.
  - subst seen. rewrite (Hcur eq_refl). now exists [].
  - destruct (Ascii.eqb c "/") eqn:Sl.
    + destruct (IH None false (fun _ => eq_refl) H) as [closed Hc].
      destruct cur as [m|].
      * exists (m :: closed). intros s. now rewrite Hc.
      * exists closed. intros s.
        apply Ascii.eqb_eq in Sl. subst c. simpl. apply Hc.
    + destruct cur as [m|].
      * destruct seen; [|now specialize (Hcur eq_refl)].
        simpl in H.
        destruct (IH (Some (m +:+ String c EmptyString)) true
                    ltac:(discriminate) H) as [closed Hc].
        now exists closed.
      * destruct (Ascii.eqb c ":") eqn:Co.
        -- rewrite orb_true_r in H.
           destruct (IH (Some ":") true ltac:(discriminate) H) as [closed Hc].
           now exists closed.
        -- rewrite orb_false_r in H.
           destruct (IH None seen Hcur H) as [closed Hc]. now exists closed.
Qed.

(** A colon that opens a segment's placeholder and is followed by the end
    of the segment yields the match [":"], hence the empty name. *)
Lemma bare_colon_placeholder (pre post : string) :
  colon_since_slash false pre = false ->
  at_segment_end post = true ->
  EmptyString ∈ placeholders (pre +:+ ":" +:+ post).
Proof.
  intros Hpre Hpost. unfold placeholders, JSString.match_placeholders.
  apply Set_from_elem.
  destruct (match_from_app pre None false (fun _ => eq_refl) Hpre)
    as [closed Hc].
  rewrite Hc, map_app, elem_of_app. right.
  destruct post as [|c post]; simpl.
  - left.
  - simpl in Hpost. rewrite Hpost. left.
Qed.

(** ** The path state of the URL parser *)

Module URLFacts.
Import URL JSStringFacts.

Lemma remove_tab_newline_app (a b : string) :
  remove_tab_newline (a +:+ b) = remove_tab_newline a +:+ remove_tab_newline b.
Proof.
  induction a as [|c a IH]; simpl; [reflexivity |].
  destruct (is_tab_or_newline c); simpl; now rewrite IH.
Qed.

Lemma plain_char_not_tab (c : ascii) :
  plain_char c = true -> is_tab_or_newline c = false.
Proof.
  unfold plain_char, in_path_percent_encode_set, is_tab_or_newline.
  intros H. apply andb_prop in H as [H _]. apply negb_true_iff in H.
  apply orb_false_elim in H as [H _]. apply orb_false_elim in H as [H _].
  apply Nat.leb_gt in H.
  destruct (Nat.eqb_spec (code c) 9), (Nat.eqb_spec (code c) 10),
    (Nat.eqb_spec (code c) 13); simpl; try reflexivity; lia.
Qed.

Lemma plain_char_encode (c : ascii) :
  plain_char c = true -> percent_encode c = String c EmptyString.
Proof.
  unfold plain_char, percent_encode. intros H.
  apply andb_prop in H as [H _]. apply negb_true_iff in H. now rewrite H.
Qed.

Lemma plain_char_not_slash (c : ascii) :
  plain_char c = true -> Ascii.eqb c "/" = false -> is_slash c = false.
Proof.
  unfold plain_char, is_slash. intros H ->.
  apply andb_prop in H as [_ H]. apply negb_true_iff in H. now rewrite H.
Qed.

Lemma slash_not_tab : is_tab_or_newline "/" = false.
Proof. reflexivity. Qed.

Lemma plain_from_no_tab (buffer s : string) :
  plain_from buffer s = true -> remove_tab_newline s = s.
Proof.
  revert buffer. induction s as [|c s IH]; intros buffer H; simpl in *;
    [reflexivity |].
  destruct (Ascii.eqb_spec c "/") as [->|Hc].
  - apply andb_prop in H as [_ H]. simpl. now rewrite (IH _ H).
  - apply andb_prop in H as [Hp H].
    rewrite (plain_char_not_tab _ Hp). now rewrite (IH _ H).
Qed.

Lemma serialize_path_app (p q : list string) :
  serialize_path (p ++ q) = serialize_path p +:+ serialize_path q.
Proof.
  induction p as [|x p IH]; simpl; [reflexivity |].
  now rewrite IH, !app_assoc.
Qed.

(** Plain text goes through the path state as it is. *)
Lemma path_state_plain (s : string) :
  forall path buffer,
    plain_from buffer s = true ->
    serialize_path (path_state path buffer s)
      = serialize_path path +:+ "/" +:+ buffer +:+ s.
Proof.
  induction s as [|c s IH]; intros path buffer H; simpl in H.
  - simpl. unfold close_segment. unfold is_dot_segment in H.
    apply negb_true_iff, orb_false_elim in H as [H1 H2].
    rewrite H1, H2, serialize_path_app. simpl.
    now rewrite !app_nil_r.
  - destruct (Ascii.eqb_spec c "/") as [->|Hc].
    + apply andb_prop in H as [Hd H]. unfold is_dot_segment in Hd.
      apply negb_true_iff, orb_false_elim in Hd as [H1 H2].
      simpl. unfold close_segment. rewrite H1, H2.
      rewrite (IH _ _ H), serialize_path_app. simpl.
      now rewrite !app_nil_r, !app_assoc.
    + apply andb_prop in H as [Hp H].
      assert (Ascii.eqb c "/" = false) as Hc' by now apply Ascii.eqb_neq.
      simpl. rewrite (plain_char_not_slash _ Hp Hc'), (plain_char_encode _ Hp).
      rewrite (IH _ _ H). now rewrite !app_assoc.
Qed.

(** Whatever comes before a slash, the path state starts the text after
    the slash with an empty buffer. *)
Lemma path_state_slash (a : string) :
  forall path buffer,
    exists path', forall t,
      path_state path buffer (a +:+ String "/" t) = path_state path' EmptyString t.
Proof.
  induction a as [|c a IH]; intros path buffer; simpl.
  - now exists (close_segment path buffer true).
  - destruct (is_slash c).
    + apply IH.
    + apply IH.
Qed.

(** Assigning to [pathname] a text that ends with a slash and plain text
    yields a path that ends with that slash and that text. *)
Lemma set_pathname_plain_tail (u : t) (a tail : string) :
  plain_from EmptyString tail = true ->
  exists head,
    pathname (set_pathname u (a +:+ String "/" tail)) = head +:+ String "/" tail.
Proof.
  intros H. unfold set_pathname. cbn [pathname].
  rewrite remove_tab_newline_app.
  change (String "/" tail) with (String "/" EmptyString +:+ tail).
  rewrite remove_tab_newline_app, (plain_from_no_tab _ _ H). simpl.
  unfold path_start_state.
  destruct (remove_tab_newline a) as [|c a'] eqn:A; simpl.
  - exists EmptyString. now rewrite (path_state_plain _ _ _ H).
  - destruct (is_slash c).
    + destruct (path_state_slash a' [] EmptyString) as [path' Hp].
      rewrite Hp, (path_state_plain _ _ _ H). now exists (serialize_path path').
    + destruct (path_state_slash a' [] (percent_encode c)) as [path' Hp].
      rewrite Hp, (path_state_plain _ _ _ H). now exists (serialize_path path').
Qed.

End URLFacts.

(** ** Runs of the request function *)

Section RequestFacts.

Context {ParamArg BodyArg BodyInit Response Result U Opaque : Type}.

Abbreviation Bundle :=
  (@AbstractApi ParamArg BodyArg BodyInit Response Result U).
Abbreviation Registry :=
  (@FectherInit ParamArg BodyArg BodyInit Response Result U).
Abbreviation Payload := (@Value BodyInit Opaque).
Abbreviation State := (@World BodyInit Opaque).

Variable transport : URL.t -> gmap string Payload -> @Promise U Response.

(** Inversion of a run of [bind m k]: first [m] runs, to an exception or
    to a value that [k] continues from. *)
Tactic Notation "bind_inv" hyp(H) "as" simple_intropattern(pat)
    "eqn" ident(HP) :=
  match type of H with
  | @bind ?BI ?U ?O ?A ?B ?m ?k ?w = _ =>
      change (@bind BI U O A B m k w)
        with (match m w with
              | (inr a, w') => k a w'
              | (inl e, w') => (inl e, w')
              end) in H;
      destruct (m w) as pat eqn:HP; cbv beta in H
  end.

Lemma registered_unique (self : Registry) endpoint method (e1 e2 : Bundle) :
  registered self endpoint method e1 -> registered self endpoint method e2 ->
  e1 = e2.
Proof. intros (m1 & A1 & B1) (m2 & A2 & B2). congruence. Qed.

Lemma api_entry_cases (self : Registry) endpoint method (w : State) :
  (exists entry, registered self endpoint method entry /\
                 api_entry self endpoint method w = (inr entry, w)) \/
  ((forall entry, ~ registered self endpoint method entry) /\
   api_entry (Opaque := Opaque) self endpoint method w = (inl TypeError, w)).
Proof.
  unfold api_entry, registered.
  destruct (api self !! endpoint) as [ms|] eqn:A.
  - destruct (ms !! method) as [entry|] eqn:B.
    + left. exists entry. split; [now exists ms | reflexivity].
    + right. split; [|reflexivity]. intros entry (ms' & A' & B'). congruence.
  - right. split; [|reflexivity]. intros entry (ms' & A' & B'). congruence.
Qed.

(** One step of the loop acts on the [URL] object as [substitute_url]
    says, and leaves the log alone. *)
Lemma substitute_run (entry : string * string) (w : State) :
  substitute (U := U) entry w =
    (inr tt, {| url := substitute_url (url w) entry; calls := calls w |}).
Proof.
  destruct entry as [k v]. unfold substitute, substitute_url, bind, get_url.
  cbn [fst snd].
  now destruct (JSString.includes (URL.pathname (url w)) (":" +:+ k)).
Qed.

(** The substitution loop only rewrites the [URL] object, entry after
    entry, and never throws. *)
Lemma forEach_substitute (m : JSRecord) (w : State) :
  forEach (U := U) (Object_entries m) substitute w =
    (inr tt, {| url := fold_left substitute_url m (url w); calls := calls w |}).
Proof.
  revert w. induction m as [|kv m IH]; intros w.
  - now destruct w.
  - change (forEach (U := U) (Object_entries (kv :: m)) substitute w)
      with (bind (U := U) (substitute kv)
              (fun _ => forEach (Object_entries m) substitute) w).
    unfold bind. rewrite substitute_run, IH. reflexivity.
Qed.

Lemma resolves_unique (self : Registry) endpoint method p (m1 m2 : JSRecord) :
  resolves self endpoint method p m1 -> resolves self endpoint method p m2 ->
  m1 = m2.
Proof.
  destruct p as [p|]; simpl; [|congruence].
  intros (e1 & g1 & R1 & G1 & V1) (e2 & g2 & R2 & G2 & V2).
  rewrite (registered_unique _ _ _ _ _ R1 R2) in G1. congruence.
Qed.

Lemma computes_body_unique (self : Registry) endpoint method b (v1 v2 : Payload) :
  computes_body self endpoint method b v1 ->
  computes_body self endpoint method b v2 -> v1 = v2.
Proof.
  destruct b as [| |b]; simpl; [congruence | congruence |].
  intros (e1 & g1 & x1 & R1 & G1 & V1 & ->) (e2 & g2 & x2 & R2 & G2 & V2 & ->).
  rewrite (registered_unique _ _ _ _ _ R1 R2) in G1. congruence.
Qed.

(** The part of [request] that handles [args.param]: it throws before
    touching anything, or it validates and then substitutes. *)
Lemma params_phase_inv (self : Registry) endpoint method (p : option ParamArg)
    (w w1 : State) (s : Exn U + unit) :
  match p with
  | Some p =>
      bind (api_entry self endpoint method)
        (fun entry =>
           bind (call_non_null (param entry) p)
             (fun prm =>
                bind (lift (assertHasAllParams endpoint prm))
                  (fun _ => forEach (Object_entries prm) substitute)))
  | None => lift (assertHasAllParams endpoint [])
  end w = (s, w1) ->
  ((forall m, ~ resolves self endpoint method p m) /\
   (exists e, s = inl e) /\ w1 = w) \/
  (exists m e,
      resolves self endpoint method p m /\
      assertHasAllParams endpoint m = inl e /\ s = inl e /\ w1 = w) \/
  (exists m,
      resolves self endpoint method p m /\
      @assertHasAllParams U endpoint m = inr tt /\ s = inr tt /\
      w1 = {| url := fold_left substitute_url m (url w); calls := calls w |}).
Proof.
  destruct p as [p|]; intros H.
  - bind_inv H as [[e|entry0] w2] eqn E.
    + (* no entry *)
      left. injection H as <- <-.
      destruct (api_entry_cases self endpoint method w)
        as [(entry & R & E')|(N & E')]; [congruence |].
      rewrite E' in E. injection E as <- <-.
      split; [|split; [eauto | reflexivity]].
      intros m (entry & g & R & _). now apply (N entry).
    + destruct (api_entry_cases self endpoint method w)
        as [(entry & R & E')|(N & E')]; [|congruence].
      rewrite E' in E. injection E as <- <-.
      bind_inv H as [[e|m] w3] eqn G.
      * (* no transform, or the transform throws *)
        left. injection H as <- <-. unfold call_non_null in G.
        destruct (param entry) as [g|] eqn:Pg.
        -- unfold lift in G. injection G as G <-.
           split; [|split; [eauto | reflexivity]].
           intros m (entry' & g' & R' & Pg' & V).
           rewrite <- (registered_unique _ _ _ _ _ R R') in Pg'. congruence.
        -- unfold throw in G. injection G as <- <-.
           split; [|split; [eauto | reflexivity]].
           intros m (entry' & g' & R' & Pg' & V).
           rewrite <- (registered_unique _ _ _ _ _ R R') in Pg'. congruence.
      * unfold call_non_null in G.
        destruct (param entry) as [g|] eqn:Pg; [|discriminate].
        unfold lift in G. injection G as G <-.
        assert (resolves self endpoint method (Some p) m) as Res
          by (exists entry, g; auto).
        bind_inv H as [[e|[]] w4] eqn V; unfold lift in V; injection V as V <-.
        -- right. left. injection H as <- <-. exists m, e. auto.
        -- right. right. rewrite forEach_substitute in H.
           injection H as <- <-. exists m. auto.
  - unfold lift in H. injection H as H <-.
    destruct s as [e|[]].
    + right. left. exists [], e. simpl. auto.
    + right. right. exists []. simpl. destruct w. auto.
Qed.

(** The part that computes the payload: it leaves the state alone. *)
Lemma body_phase_inv (self : Registry) endpoint method (b : Nullable BodyArg)
    (w w1 : State) (s : Exn U + Payload) :
  match b with
  | JsValue b =>
      bind (api_entry self endpoint method)
        (fun entry =>
           bind (call_non_null (body entry) b) (fun x => ret (VBody x)))
  | _ => ret VUndefined
  end w = (s, w1) ->
  w1 = w /\
  (((forall v : Payload, ~ computes_body self endpoint method b v) /\
    exists e, s = inl e) \/
   (exists v, computes_body self endpoint method b v /\ s = inr v)).
Proof.
  destruct b as [| |b]; intros H.
  - injection H as <- <-. split; [reflexivity |]. right. now exists VUndefined.
  - injection H as <- <-. split; [reflexivity |]. right. now exists VUndefined.
  - bind_inv H as [[e|entry0] w2] eqn E.
    + injection H as <- <-.
      destruct (api_entry_cases self endpoint method w)
        as [(entry & R & E')|(N & E')]; [congruence |].
      rewrite E' in E. injection E as <- <-.
      split; [reflexivity |]. left. split; [|eauto].
      intros v (entry & g & x & R & _). now apply (N entry).
    + destruct (api_entry_cases self endpoint method w)
        as [(entry & R & E')|(N & E')]; [|congruence].
      rewrite E' in E. injection E as <- <-.
      bind_inv H as [[e|x0] w3] eqn G; unfold call_non_null in G.
      * injection H as <- <-.
        assert (w3 = w /\ forall x, body entry = Some x -> x b = inl e) as [-> Hb].
        { destruct (body entry) as [g|].
          - unfold lift in G. injection G as G <-. split; [reflexivity |].
            intros x [= <-]. assumption.
          - unfold throw in G. injection G as <- <-. now split. }
        split; [reflexivity |]. left. split; [|eauto].
        intros v (entry' & g' & x & R' & Pg' & V & _).
        rewrite <- (registered_unique _ _ _ _ _ R R') in Pg'.
        rewrite (Hb _ Pg') in V. discriminate.
      * destruct (body entry) as [g|] eqn:Pg; [|discriminate].
        unfold lift in G. injection G as G <-.
        unfold ret in H. injection H as <- <-.
        split; [reflexivity |]. right. exists (VBody x0).
        split; [|reflexivity]. now exists entry, g, x0.
Qed.

(** Every run of [request]: it throws while resolving [args.param]; or
    validation throws; or the payload cannot be computed; or the transport
    is called, once, with the [URL] object as substitution left it. *)
Lemma request_inv (self : Registry) endpoint method args options
    (w w' : State) r :
  request transport self endpoint method args options w = (r, w') ->
  ((forall m, ~ resolves self endpoint method (arg_param args) m) /\
   (exists e, r = inl e) /\ w' = w) \/
  (exists m e,
      resolves self endpoint method (arg_param args) m /\
      assertHasAllParams endpoint m = inl e /\ r = inl e /\ w' = w) \/
  (exists m,
      resolves self endpoint method (arg_param args) m /\
      @assertHasAllParams U endpoint m = inr tt /\
      url w' = fold_left substitute_url m (url w) /\
      (((forall v : Payload, ~ computes_body self endpoint method (arg_body args) v) /\
        (exists e, r = inl e) /\ calls w' = calls w) \/
       (exists payload,
           computes_body self endpoint method (arg_body args) payload /\
           calls w' = calls w ++ [(url w', request_init method payload options)] /\
           ((exists entry,
                registered self endpoint method entry /\
                r = inr (Promise_then
                           (transport (url w')
                              (request_init method payload options))
                           (response entry))) \/
            ((forall entry, ~ registered self endpoint method entry) /\
             r = inl TypeError))))).
Proof.
  unfold request. destruct args as [p b]. cbn [arg_param arg_body]. intros H.
  bind_inv H as [[e|[]] w1] eqn P1.
  - injection H as <- <-.
    apply params_phase_inv in P1
      as [(N & _ & ->)|[(m & e' & Res & V & [= <-] & ->)|(m & _ & _ & [=] & _)]].
    + left. eauto.
    + right. left. exists m, e. auto.
  - apply params_phase_inv in P1
      as [(_ & [e [=]] & _)|[(m & e' & _ & _ & [=] & _)|(m & Res & V & _ & ->)]].
    right. right. exists m. split; [assumption |]. split; [assumption |].
    bind_inv H as [[e|v0] w2] eqn P2; apply body_phase_inv in P2 as [-> P2].
    + injection H as <- <-. split; [reflexivity |]. left.
      destruct P2 as [[N _]|(v & _ & [=])]. split; [assumption |]. eauto.
    + destruct P2 as [[_ [e [=]]]|(v & Cb & [= <-])].
      bind_inv H as [[e|pr] w3] eqn P3; unfold call_transport in P3;
        [discriminate |].
      injection P3 as <- <-. cbn [url calls] in *.
      match type of H with
      | bind _ _ ?W = _ =>
          destruct (api_entry_cases self endpoint method W)
            as [(entry & R & E')|(N & E')]
      end;
        bind_inv H as [[e|entry0] w4] eqn P4;
        try discriminate E'; injection E' as -> ->;
        [unfold ret in H; cbv beta in H|]; injection H as <- <-;
        (split; [reflexivity |]); right; exists v0;
        (split; [assumption |]); (split; [reflexivity |]).
      * left. exists entry. now split.
      * right. now split.
Qed.

End RequestFacts.

(** ** Invocations of a bound request function *)

Section InvokeFacts.

Context {ParamArg BodyArg BodyInit Response Result U Opaque : Type}.

Abbreviation Bundle :=
  (@AbstractApi ParamArg BodyArg BodyInit Response Result U).
Abbreviation Registry :=
  (@FectherInit ParamArg BodyArg BodyInit Response Result U).
Abbreviation Payload := (@Value BodyInit Opaque).

Variable transport : URL.t -> gmap string Payload -> @Promise U Response.

(** [invoke] in terms of the run of [request] it stands for. *)
Lemma invoke_request (self : Registry) f args options (log0 : list Call) :
  exists r w',
    request transport self (bf_endpoint f) (bf_method f) args options
      {| url := bf_url f; calls := log0 |} = (r, w') /\
    completion (invoke transport self f args options log0) = r /\
    bf_url (closure (invoke transport self f args options log0)) = url w' /\
    bf_endpoint (closure (invoke transport self f args options log0))
      = bf_endpoint f /\
    bf_method (closure (invoke transport self f args options log0))
      = bf_method f /\
    log (invoke transport self f args options log0) = calls w'.
Proof.
  unfold invoke.
  destruct (request transport self (bf_endpoint f) (bf_method f) args options
              {| url := bf_url f; calls := log0 |}) as [r w'].
  exists r, w'. cbn. auto 10.
Qed.

(** An invocation whose mapping fails validation throws the helper's
    error, and leaves the closure and the log as they were. *)
Lemma invoke_invalid (self : Registry) f args options (log0 : list Call) m e :
  resolves self (bf_endpoint f) (bf_method f) (arg_param args) m ->
  assertHasAllParams (bf_endpoint f) m = inl e ->
  completion (invoke transport self f args options log0) = inl e /\
  closure (invoke transport self f args options log0) = f /\
  log (invoke transport self f args options log0) = log0.
Proof.
  intros Res V.
  destruct (invoke_request self f args options log0)
    as (r & w' & Run & -> & Hu & He & Hm & ->).
  apply request_inv in Run
    as [(N & _)|[(m' & e' & Res' & V' & -> & ->)|(m' & Res' & V' & _)]].
  - exfalso. now apply (N m).
  - rewrite (resolves_unique _ _ _ _ _ _ Res Res') in V.
    split; [congruence |]. split; [|reflexivity].
    destruct (closure _), f. cbn in *. congruence.
  - rewrite (resolves_unique _ _ _ _ _ _ Res Res') in V. congruence.
Qed.

Lemma invoke_missing (self : Registry) f args options (log0 : list Call) m :
  resolves self (bf_endpoint f) (bf_method f) (arg_param args) m ->
  missing_params (bf_endpoint f) m <> [] ->
  completion (invoke transport self f args options log0) =
    inl (Error (missing_message (missing_params (bf_endpoint f) m)
                  (bf_endpoint f))) /\
  log (invoke transport self f args options log0) = log0 /\
  closure (invoke transport self f args options log0) = f.
Proof.
  intros Res Hmiss.
  destruct (@assertHasAllParams_cases U (bf_endpoint f) m) as [[E _]|[_ E]];
    [contradiction |].
  destruct (invoke_invalid self f args options log0 m _ Res E)
    as (Hc & Hf & Hl).
  auto.
Qed.

(** An invocation whose mapping passes validation and whose payload can be
    computed calls the transport once, with the [URL] object as the
    substitutions left it. *)
Lemma invoke_valid (self : Registry) f args options (log0 : list Call) m payload :
  resolves self (bf_endpoint f) (bf_method f) (arg_param args) m ->
  @assertHasAllParams U (bf_endpoint f) m = inr tt ->
  computes_body self (bf_endpoint f) (bf_method f) (arg_body args) payload ->
  let o := invoke transport self f args options log0 in
  let u := fold_left substitute_url m (bf_url f) in
  let init := request_init (bf_method f) payload options in
  bf_url (closure o) = u /\
  log o = log0 ++ [(u, init)] /\
  forall entry,
    registered self (bf_endpoint f) (bf_method f) entry ->
    completion o = inr (Promise_then (transport u init) (response entry)).
Proof.
  intros Res V Cb o u init. subst o.
  destruct (invoke_request self f args options log0)
    as (r & w' & Run & -> & -> & He & Hm & ->).
  apply request_inv in Run
    as [(N & _)|[(m' & e' & Res' & V' & _)|(m' & Res' & _ & Hu & Run)]].
  - exfalso. now apply (N m).
  - rewrite (resolves_unique _ _ _ _ _ _ Res Res') in V. congruence.
  - rewrite <- (resolves_unique _ _ _ _ _ _ Res Res') in Hu. cbn in Hu.
    destruct Run as [(N & _)|(payload' & Cb' & Hc & Hr)].
    + exfalso. now apply (N payload).
    + rewrite <- (computes_body_unique _ _ _ _ _ _ Cb Cb') in Hc, Hr.
      rewrite Hu in Hc, Hr. cbn in Hc. subst u init.
      split; [assumption |]. split; [assumption |].
      intros entry R. destruct Hr as [(entry' & R' & ->)|(N & _)].
      * now rewrite (registered_unique _ _ _ _ _ R R').
      * exfalso. now apply (N entry).
Qed.

(** An invocation adds at most one call to the log; when it adds one, the
    mapping was resolved and validated, the payload computed, and the
    call is the one [invoke_valid] describes. *)
Lemma invoke_transport_inv (self : Registry) f args options
    (log0 : list Call) u init :
  log (invoke transport self f args options log0) = log0 ++ [(u, init)] ->
  exists m payload,
    resolves self (bf_endpoint f) (bf_method f) (arg_param args) m /\
    @assertHasAllParams U (bf_endpoint f) m = inr tt /\
    computes_body self (bf_endpoint f) (bf_method f) (arg_body args) payload /\
    u = fold_left substitute_url m (bf_url f) /\
    init = request_init (bf_method f) payload options.
Proof.
  intros Hlog.
  destruct (invoke_request self f args options log0)
    as (r & w' & Run & _ & _ & _ & _ & Hl).
  rewrite Hl in Hlog. clear Hl.
  assert (forall x : Call, log0 <> log0 ++ [x]) as Hne.
  { intros x E. apply (f_equal List.length) in E.
    rewrite length_app in E. simpl in E. lia. }
  apply request_inv in Run
    as [(_ & _ & ->)|[(m & e & _ & _ & _ & ->)|(m & Res & V & Hu & Run)]];
    cbn in Hlog.
  - exfalso. now apply (Hne (u, init)).
  - exfalso. now apply (Hne (u, init)).
  - destruct Run as [(_ & _ & Hc)|(payload & Cb & Hc & _)]; cbn in Hc.
    + rewrite Hc in Hlog. exfalso. now apply (Hne (u, init)).
    + rewrite Hc in Hlog. apply app_inj_tail in Hlog as [_ [= <- <-]].
      exists m, payload. cbn in Hu. auto.
Qed.

(** Without [param] the [URL] object of the closure is left as it is. *)
Lemma invoke_without_param_keeps_url (self : Registry) f args options
    (log0 : list Call) :
  arg_param args = None ->
  bf_url (closure (invoke transport self f args options log0)) = bf_url f.
Proof.
  intros Hp.
  destruct (invoke_request self f args options log0)
    as (r & w' & Run & _ & -> & _).
  apply request_inv in Run
    as [(_ & _ & ->)|[(m & e & _ & _ & _ & ->)|(m & Res & _ & -> & _)]];
    [reflexivity | reflexivity |].
  rewrite Hp in Res. simpl in Res. now subst m.
Qed.

End InvokeFacts.

(** * The properties of the request builder *)

Section Claims.

Context {ParamArg BodyArg BodyInit Response Result U Opaque : Type}.

Abbreviation Payload := (@Value BodyInit Opaque).

Variable transport : URL.t -> gmap string Payload -> @Promise U Response.

Variable self : @FectherInit ParamArg BodyArg BodyInit Response Result U.

(** Whenever [assertHasAllParams] finds a missing name, that is, whenever
    the list of missing names it computes for the resolved parameter
    mapping is not empty, the invocation throws the missing-parameter
    error synchronously (it does not return a promise), the transport log
    is what it was before the invocation, and the closure is untouched:
    the transport is not invoked. *)
Theorem validation_failure_precedes_transport
    (f : BoundFetch) (args : Args) (options : option (gmap string Payload))
    (log0 : list Call) (m : JSRecord) :
  resolves self (bf_endpoint f) (bf_method f) (arg_param args) m ->
  missing_params (bf_endpoint f) m <> [] ->
  let o := invoke transport self f args options log0 in
  completion o =
    inl (Error (missing_message (missing_params (bf_endpoint f) m)
                  (bf_endpoint f))) /\
  log o = log0 /\
  closure o = f.
Proof.
  intros Res Hmiss o.
  exact (invoke_missing transport self f args options log0 m Res Hmiss).
Qed.

(** C6. For every invocation that invokes the transport, the options
    object the transport receives has the method of the bound function
    under [method] and the body this invocation computed under [body],
    whatever the caller's options hold under these two names; every other
    field is the caller's, unchanged. *)
Theorem transport_options_method_body_fixed
    (f : BoundFetch) (args : Args) (options : option (gmap string Payload))
    (log0 : list Call) (u : URL.t) (init : gmap string Payload) :
  log (invoke transport self f args options log0) = log0 ++ [(u, init)] ->
  init !! "method" = Some (VString (bf_method f)) /\
  (exists payload,
      computes_body self (bf_endpoint f) (bf_method f) (arg_body args) payload /\
      init !! "body" = Some payload) /\
  forall k, k <> "method" -> k <> "body" ->
            init !! k = default ∅ options !! k.
Proof.
  intros Hlog.
  apply invoke_transport_inv in Hlog as (m & payload & _ & _ & Cb & _ & ->).
  unfold request_init. split; [|split].
  - rewrite lookup_insert_ne by discriminate. apply lookup_insert_eq.
  - exists payload. split; [assumption |]. apply lookup_insert_eq.
  - intros k Hm Hb. now rewrite !lookup_insert_ne by congruence.
Qed.

(** C7. In an invocation whose parameter mapping passes validation: when a
    body argument other than [null] and [undefined] is supplied, the
    transport is called with, under [body], exactly what the registered
    [body] transform returns for that argument; when the body argument is
    omitted or [null], the transport is called with an undefined [body]. *)
Theorem transport_receives_transformed_body
    (f : BoundFetch) (args : Args) (options : option (gmap string Payload))
    (log0 : list Call) (m : JSRecord) :
  resolves self (bf_endpoint f) (bf_method f) (arg_param args) m ->
  @assertHasAllParams U (bf_endpoint f) m = inr tt ->
  let o := invoke transport self f args options log0 in
  match arg_body args with
  | JsValue b =>
      forall entry g x,
        registered self (bf_endpoint f) (bf_method f) entry ->
        body entry = Some g -> g b = inr x ->
        exists u init, log o = log0 ++ [(u, init)] /\
                       init !! "body" = Some (VBody x)
  | _ =>
      exists u init, log o = log0 ++ [(u, init)] /\
                     init !! "body" = Some VUndefined
  end.
Proof.
  intros Res V o. subst o.
  assert (forall payload : Payload,
             computes_body self (bf_endpoint f) (bf_method f)
               (arg_body args) payload ->
             exists u init,
               log (invoke transport self f args options log0)
                 = log0 ++ [(u, init)] /\
               init !! "body" = Some payload) as Hcall.
  { intros payload Cb.
    destruct (invoke_valid transport self f args options log0 m payload
                Res V Cb) as (_ & Hl & _).
    eexists _, _. split; [exact Hl |]. apply lookup_insert_eq. }
  destruct (arg_body args) as [| |b] eqn:B.
  - now apply Hcall.
  - now apply Hcall.
  - intros entry g x R G X. apply Hcall. now exists entry, g, x.
Qed.

(** C8. For every invocation that invokes the transport, what the caller
    gets back is the promise of the transport chained with the [response]
    transform registered for the pair, and nothing else: when the
    transport's promise fulfils with a response, the result is what
    [response] returns for that response, whatever the response is. *)
Theorem result_is_response_transform
    (f : BoundFetch) (args : Args) (options : option (gmap string Payload))
    (log0 : list Call) (u : URL.t) (init : gmap string Payload)
    (entry : AbstractApi) :
  registered self (bf_endpoint f) (bf_method f) entry ->
  log (invoke transport self f args options log0) = log0 ++ [(u, init)] ->
  completion (invoke transport self f args options log0)
    = inr (Promise_then (transport u init) (response entry)) /\
  forall r, transport u init = Fulfilled r ->
            completion (invoke transport self f args options log0)
              = inr (response entry r).
Proof.
  intros R Hlog.
  apply invoke_transport_inv in Hlog as (m & payload & Res & V & Cb & -> & ->).
  destruct (invoke_valid transport self f args options log0 m payload
              Res V Cb) as (_ & _ & Hr).
  rewrite (Hr entry R). split; [reflexivity |].
  intros r ->. reflexivity.
Qed.

End Claims.

Section Substitution.

Context {BodyInit U Opaque : Type}.

(** One run of the callback of the substitution loop, on a path that
    holds [:key] twice, the second time at the start of a segment: the
    callback assigns to [pathname] the path with the leftmost occurrence
    replaced by what [String.prototype.replace] expands the value to (the
    value itself when it has no dollar sign) and everything after it, the
    second occurrence included, as it was; whatever the value, the path
    that results still ends with the second occurrence as a literal
    segment, and nothing is appended to the query. *)
Theorem substitution_replaces_first_occurrence_only
    (w : @World BodyInit Opaque) (key value pre mid post : string) :
  let token := ":" +:+ key in
  let rest := mid +:+ String "/" (token +:+ post) in
  URL.pathname (url w) = pre +:+ token +:+ rest ->
  (forall pre' post',
      URL.pathname (url w) = pre' +:+ token +:+ post' ->
      String.length pre <= String.length pre') ->
  plain_from EmptyString (token +:+ post) = true ->
  exists u',
    substitute (U := U) (key, value) w
      = (inr tt, {| url := u'; calls := calls w |}) /\
    u' = URL.set_pathname (url w)
           (pre +:+ JSString.GetSubstitution token pre rest value +:+ rest) /\
    (dollar_free value = true ->
     u' = URL.set_pathname (url w) (pre +:+ value +:+ rest)) /\
    (exists head, URL.pathname u' = head +:+ String "/" (token +:+ post)) /\
    URL.searchParams u' = URL.searchParams (url w).
Proof.
  intros token rest Hpath Hfirst Hplain.
  assert (JSString.cut token (URL.pathname (url w)) = Some (pre, rest)) as Hcut.
  { rewrite Hpath. apply JSStringFacts.cut_leftmost.
    intros pre' post' E. apply (Hfirst pre' post'). now rewrite Hpath. }
  exists (URL.set_pathname (url w)
            (pre +:+ JSString.GetSubstitution token pre rest value +:+ rest)).
  split; [|split; [reflexivity | split; [|split]]].
  - rewrite substitute_run. unfold substitute_url. cbn [fst snd].
    fold token. unfold JSString.includes, JSString.replace.
    now rewrite Hcut.
  - intros Hd.
    now rewrite (JSStringFacts.GetSubstitution_dollar_free _ _ _ _ Hd).
  - unfold rest.
    rewrite <- !JSStringFacts.app_assoc.
    apply URLFacts.set_pathname_plain_tail, Hplain.
  - reflexivity.
Qed.

End Substitution.

Section BareColon.

Context {ParamArg BodyArg BodyInit Response Result U Opaque : Type}.

Variable transport :
  URL.t -> gmap string (@Value BodyInit Opaque) -> @Promise U Response.

Variable self : @FectherInit ParamArg BodyArg BodyInit Response Result U.

(** C10, amended. A bare colon that opens a placeholder (no other colon
    stands between it and the slash before it, or the start of the
    pattern) is a placeholder with the empty name: an invocation for such
    a pattern returns only if the resolved parameter mapping has the empty
    string as a key, and otherwise throws the missing-parameter error,
    which lists the empty name, before any call of the transport. *)
Theorem bare_colon_needs_empty_key
    (f : BoundFetch) (args : Args)
    (options : option (gmap string (@Value BodyInit Opaque)))
    (log0 : list Call) (m : JSRecord) (pre post : string) :
  bf_endpoint f = pre +:+ ":" +:+ post ->
  colon_since_slash false pre = false ->
  at_segment_end post = true ->
  resolves self (bf_endpoint f) (bf_method f) (arg_param args) m ->
  let o := invoke transport self f args options log0 in
  EmptyString ∈ placeholders (bf_endpoint f) /\
  ((exists p, completion o = inr p) -> EmptyString ∈ Object_keys m) /\
  (EmptyString ∉ Object_keys m ->
   EmptyString ∈ missing_params (bf_endpoint f) m /\
   completion o =
     inl (Error (missing_message (missing_params (bf_endpoint f) m)
                   (bf_endpoint f))) /\
   log o = log0).
Proof.
  intros Hend Hpre Hpost Res o.
  assert (EmptyString ∈ placeholders (bf_endpoint f)) as Hin
    by (rewrite Hend; now apply bare_colon_placeholder).
  assert (EmptyString ∉ Object_keys m ->
          EmptyString ∈ missing_params (bf_endpoint f) m) as Hmiss.
  { intros Hk. apply missing_params_elem. split; [assumption |].
    unfold JS_in. rewrite (bool_decide_eq_false_2 _ Hk). reflexivity. }
  assert (EmptyString ∉ Object_keys m ->
          completion o =
            inl (Error (missing_message (missing_params (bf_endpoint f) m)
                          (bf_endpoint f))) /\
          log o = log0) as Hthrow.
  { intros Hk.
    destruct (invoke_missing transport self f args options log0 m Res)
      as (Hc & Hl & _); [|now split].
    intros E. specialize (Hmiss Hk). rewrite E in Hmiss.
    now apply elem_of_nil in Hmiss. }
  split; [assumption |]. split.
  - intros [p Hp].
    destruct (decide (EmptyString ∈ Object_keys m)) as [|Hk]; [assumption |].
    destruct (Hthrow Hk) as [Hc _]. congruence.
  - intros Hk. split; [now apply Hmiss | now apply Hthrow].
Qed.

End BareColon.

(** ** The properties on the registry of the repository's test *)

Module Witnesses.
Import TestRegistry.

(** [fetch] on the patterns used below returns the closures [bound]
    names. *)
Example fetch_users_id :
  fetch fetcher "/users/:id" "GET" = Some (bound "/users/:id" "GET") /\
  fetch fetcher "/users/:id" "POST" = Some (bound "/users/:id" "POST") /\
  fetch fetcher "/users/:id/online" "GET"
    = Some (bound "/users/:id/online" "GET").
Proof. repeat split. Qed.

(** The three requests of the test: what the stubs assert, and the type of
    the results. *)
Example test_get_user_online :
  let o := invoke (stub "ok") fetcher (bound "/users/:id/online" "GET")
             (args (Some [("id", Num 1)]) JsUndefined) no_options [] in
  map fst (log o) = [URL.mk "https://api.example.com" "/users/1/online" []] /\
  (forall init, init ∈ map snd (log o) -> init !! "method" = Some (VString "GET")) /\
  completion o = inr (Fulfilled (Boolean true)).
Proof.
  vm_compute. repeat split.
  intros init H. apply list_elem_of_singleton in H. now subst.
Qed.

Example test_get_user :
  let o := invoke (stub "something response") fetcher (bound "/users/:id" "GET")
             (args (Some [("id", Str "1"); ("v", Num 1)]) JsUndefined)
             no_options [] in
  map fst (log o) = [URL.mk "https://api.example.com" "/users/1" [("v", "1")]] /\
  completion o = inr (Fulfilled (Text "something response")).
Proof. vm_compute. repeat split. Qed.

Example test_post_user :
  let o := invoke (stub "something response") fetcher (bound "/users/:id" "POST")
             (args (Some [("id", Str "1")]) (JsValue [("name", Str "hoge")]))
             no_options [] in
  map fst (log o) = [URL.mk "https://api.example.com" "/users/1" []] /\
  map (fun c => snd c !! "body") (log o)
    = [Some (VBody (JSON_stringify [("name", Str "hoge")]))] /\
  completion o = inr (Fulfilled (Text "something response")).
Proof. vm_compute. repeat split. Qed.

Lemma validation_failure_precedes_transport_witness :
  let o := invoke (stub "ok") fetcher (bound "/users/:id" "GET")
             (args None JsUndefined) no_options [] in
  completion o = inl (Error (missing_message ["id"] "/users/:id")) /\
  log o = [] /\
  closure o = bound "/users/:id" "GET".
Proof.
  apply (validation_failure_precedes_transport (stub "ok") fetcher
           (bound "/users/:id" "GET") (args None JsUndefined) no_options []
           []).
  - reflexivity.
  - vm_compute. discriminate.
Defined.

Lemma transport_options_method_body_fixed_witness :
  let init :=
    request_init "POST" (VBody (JSON_stringify [("name", Str "hoge")]))
      meddling_options in
  init !! "method" = Some (VString "POST") /\
  (exists payload,
      computes_body fetcher "/users/:id" "POST"
        (JsValue [("name", Str "hoge")]) payload /\
      init !! "body" = Some payload) /\
  forall k, k <> "method" -> k <> "body" ->
            init !! k = default ∅ meddling_options !! k.
Proof.
  apply (transport_options_method_body_fixed (stub "r") fetcher
           (bound "/users/:id" "POST")
           (args (Some [("id", Str "1")]) (JsValue [("name", Str "hoge")]))
           meddling_options []
           (URL.mk "https://api.example.com" "/users/1" [])).
  vm_compute. reflexivity.
Defined.

Lemma transport_receives_transformed_body_witness :
  let o := invoke (stub "r") fetcher (bound "/users/:id" "POST")
             (args (Some [("id", Str "1")]) (JsValue [("name", Str "hoge")]))
             no_options [] in
  exists u init,
    log o = [] ++ [(u, init)] /\
    init !! "body" = Some (VBody (JSON_stringify [("name", Str "hoge")])).
Proof.
  apply (transport_receives_transformed_body (stub "r") fetcher
           (bound "/users/:id" "POST")
           (args (Some [("id", Str "1")]) (JsValue [("name", Str "hoge")]))
           no_options [] [("id", "1")]
           ltac:(exists users_id_POST, spread_strings; repeat split;
                 exists (<["GET" := users_id_GET]> (<["POST" := users_id_POST]> ∅));
                 split; reflexivity)
           ltac:(reflexivity)
           users_id_POST (fun b => inr (JSON_stringify b))).
  - exists (<["GET" := users_id_GET]> (<["POST" := users_id_POST]> ∅)).
    split; reflexivity.
  - reflexivity.
  - reflexivity.
Defined.

Lemma result_is_response_transform_witness :
  completion (invoke (stub "ok") fetcher (bound "/users/:id/online" "GET")
                (args (Some [("id", Num 1)]) JsUndefined) no_options [])
    = inr (Fulfilled (Boolean true)).
Proof.
  refine (proj2 (result_is_response_transform (stub "ok") fetcher
                   (bound "/users/:id/online" "GET")
                   (args (Some [("id", Num 1)]) JsUndefined) no_options []
                   (URL.mk "https://api.example.com" "/users/1/online" [])
                   (request_init "GET" VUndefined no_options)
                   users_id_online_GET _ _) "ok" eq_refl).
  - exists (<["GET" := users_id_online_GET]> ∅). split; reflexivity.
  - vm_compute. reflexivity.
Defined.

End Witnesses.

(** ** Where the code departs from the stated properties *)

Module Divergences.
Import TestRegistry.

(** C1. The closure mutates the one [URL] object that [fetch] built: a
    second invocation with the same arguments finds the placeholder
    already replaced and the query already filled, appends the key of the
    placeholder to the query, and calls the transport with another URL
    than the first invocation did. *)
Theorem repeated_invocation_reuses_mutated_url :
  let f := bound "/users/:id" "GET" in
  let a := args (Some [("id", Str "1"); ("v", Num 1)]) JsUndefined in
  let o1 := invoke (stub "r") fetcher f a no_options [] in
  let o2 := invoke (stub "r") fetcher (closure o1) a no_options (log o1) in
  fetch fetcher "/users/:id" "GET" = Some f /\
  map fst (log o2) =
    [ URL.mk "https://api.example.com" "/users/1" [("v", "1")];
      URL.mk "https://api.example.com" "/users/1"
        [("v", "1"); ("id", "1"); ("v", "1")] ].
Proof. vm_compute. split; reflexivity. Qed.

(** C2. Validation tests [key in params], which also holds for the names
    a plain object inherits from [Object.prototype]. The placeholder
    [toString] is not a key of the empty mapping, the placeholder
    [constructor] is not a key of the mapping with the one key [id], and
    yet the helper throws for neither; the invocation goes on to the
    transport with the placeholder still in the path. *)
Theorem inherited_name_passes_validation :
  let endpoint := "/users/:id/:constructor" in
  let m : JSRecord := [("id", "1")] in
  let o := invoke (stub "r") (route endpoint) (bound endpoint "GET")
             (args (Some [("id", Str "1")]) JsUndefined) no_options [] in
  (placeholders "/x/:toString" = ["toString"] /\
   Object_keys [] = [] /\
   @assertHasAllParams Empty_set "/x/:toString" [] = inr tt) /\
  placeholders endpoint = ["id"; "constructor"] /\
  Object_keys m = ["id"] /\
  @assertHasAllParams Empty_set endpoint m = inr tt /\
  fetch (route endpoint) endpoint "GET" = Some (bound endpoint "GET") /\
  map fst (log o) =
    [URL.mk "https://api.example.com" "/users/1/:constructor" []].
Proof. vm_compute. repeat split. Qed.

(** C3. Substitution looks for [":" + key] as a substring of the path: the
    key [id], met first, captures the head of the placeholder [:idx],
    whose own key then goes to the query. *)
Theorem prefix_key_captures_longer_placeholder :
  let endpoint := "/items/:idx" in
  let o := invoke (stub "r") (route endpoint) (bound endpoint "GET")
             (args (Some [("id", Str "1"); ("idx", Str "7")]) JsUndefined)
             no_options [] in
  placeholders endpoint = ["idx"] /\
  fetch (route endpoint) endpoint "GET" = Some (bound endpoint "GET") /\
  map fst (log o) =
    [URL.mk "https://api.example.com" "/items/1x" [("idx", "7")]].
Proof. vm_compute. repeat split. Qed.

(** C4. A call without [param] for a pattern whose only placeholder is
    named like an inherited property passes validation against the empty
    object and reaches the transport. *)
Theorem no_param_call_passes_with_placeholder :
  let endpoint := "/x/:toString" in
  let o := invoke (stub "r") (plain_route endpoint) (bound endpoint "GET")
             (args None JsUndefined) no_options [] in
  placeholders endpoint = ["toString"] /\
  fetch (plain_route endpoint) endpoint "GET" = Some (bound endpoint "GET") /\
  completion o = inr (Fulfilled (Text "r")) /\
  map fst (log o) = [URL.mk "https://api.example.com" "/x/:toString" []].
Proof. vm_compute. repeat split. Qed.

(** C5. A placeholder named like an inherited property is not covered by
    the mapping, and yet validation does not fail: the helper finds no
    missing name, the invocation does not throw, and the transport is
    invoked. *)
Theorem uncovered_placeholder_reaches_transport :
  let endpoint := "/files/:valueOf" in
  let o := invoke (stub "r") (plain_route endpoint) (bound endpoint "GET")
             (args None JsUndefined) no_options [] in
  placeholders endpoint = ["valueOf"] /\
  resolves (plain_route endpoint) endpoint "GET" None [] /\
  ("valueOf" ∉ Object_keys []) /\
  missing_params endpoint [] = [] /\
  fetch (plain_route endpoint) endpoint "GET" = Some (bound endpoint "GET") /\
  completion o = inr (Fulfilled (Text "r")) /\
  map fst (log o) =
    [URL.mk "https://api.example.com" "/files/:valueOf" []].
Proof.
  cbv zeta. repeat split. intros H. now apply elem_of_nil in H.
Qed.


(** C10, as stated, fails: the colon that ends ["/x/:a:"] is followed by
    the end of the string, but it belongs to the name of the placeholder
    that the colon before it opens. The pattern has no placeholder with
    the empty name, and an invocation whose mapping lacks the empty key
    returns. *)
Lemma bare_colon_inside_placeholder_name :
  let endpoint := "/x/:a:" in
  let o := invoke (stub "r") (route endpoint) (bound endpoint "GET")
             (args (Some [("a:", Str "1")]) JsUndefined) no_options [] in
  endpoint = "/x/:a" +:+ ":" +:+ EmptyString /\
  at_segment_end EmptyString = true /\
  placeholders endpoint = ["a:"] /\
  (EmptyString ∉ Object_keys [("a:", "1")]) /\
  resolves (route endpoint) endpoint "GET" (Some [("a:", Str "1")])
    [("a:", "1")] /\
  completion o = inr (Fulfilled (Text "r")).
Proof.
  cbv zeta. split; [reflexivity |]. split; [reflexivity |].
  split; [reflexivity |]. split; [|split].
  - intros H. apply list_elem_of_singleton in H. discriminate.
  - eexists _, _. split; [eexists; split; reflexivity | split; reflexivity].
  - reflexivity.
Qed.

End Divergences.

Module Witnesses2.
Import TestRegistry.

Lemma substitution_replaces_first_occurrence_only_witness :
  exists u',
    substitute (U := Empty_set) ("id", "1")
      {| url := URL.mk "https://api.example.com" "/a/:id/b/:id" [];
         calls := @nil (@Call string Empty_set) |}
      = (inr tt, {| url := u'; calls := [] |}) /\
    u' = URL.mk "https://api.example.com" "/a/1/b/:id" [].
Proof.
  destruct (substitution_replaces_first_occurrence_only (U := Empty_set)
              {| url := URL.mk "https://api.example.com" "/a/:id/b/:id" [];
                 calls := @nil (@Call string Empty_set) |}
              "id" "1" "/a/" "/b" EmptyString)
    as (u' & Hrun & Hu & _).
  - reflexivity.
  - intros pre' post' E. cbn in E.
    destruct pre' as [|c0 [|c1 [|c2 pre']]]; cbn; try lia; discriminate.
  - reflexivity.
  - exists u'. split; [exact Hrun | exact Hu].
Defined.

(** The same through a whole invocation. *)
Example repeated_placeholder_invocation :
  let endpoint := "/a/:id/b/:id" in
  let o := invoke (stub "r") (route endpoint) (bound endpoint "GET")
             (args (Some [("id", Str "1")]) JsUndefined) no_options [] in
  map fst (log o) = [URL.mk "https://api.example.com" "/a/1/b/:id" []].
Proof. reflexivity. Qed.

Lemma bare_colon_needs_empty_key_witness :
  let endpoint := "/x/:" in
  let o := invoke (stub "r") (route endpoint) (bound endpoint "GET")
             (args (Some [("y", Str "1")]) JsUndefined) no_options [] in
  EmptyString ∈ placeholders endpoint /\
  ((exists p, completion o = inr p) -> EmptyString ∈ Object_keys [("y", "1")]) /\
  (EmptyString ∉ Object_keys [("y", "1")] ->
   EmptyString ∈ missing_params endpoint [("y", "1")] /\
   completion o =
     inl (Error (missing_message (missing_params endpoint [("y", "1")])
                   endpoint)) /\
   log o = []).
Proof.
  apply (bare_colon_needs_empty_key (stub "r") (route "/x/:")
           (bound "/x/:" "GET") (args (Some [("y", Str "1")]) JsUndefined)
           no_options [] [("y", "1")] "/x/" EmptyString).
  - reflexivity.
  - reflexivity.
  - reflexivity.
  - eexists _, _. split; [eexists; split; reflexivity | split; reflexivity].
Defined.

End Witnesses2.

(** * Further properties *)

(** ** Validation *)

Module ValidationFacts.

Lemma filter_sublist {A} (f : A -> bool) (l : list A) :
  sublist (List.filter f l) l.
Proof.
  induction l as [|x l IH]; simpl; [constructor |].
  destruct (f x); now constructor.
Qed.

(** Validation passes exactly when every placeholder of the pattern is an
    own key of the mapping or a property name every plain object
    inherits. *)
Lemma validation_passes_iff_own_or_inherited
    (U : Type) (endpoint : string) (params : JSRecord) :
  @assertHasAllParams U endpoint params = inr tt <->
  forall k, k ∈ placeholders endpoint ->
            k ∈ Object_keys params \/ k ∈ Object_prototype_keys.
Proof.
  rewrite assertHasAllParams_passes.
  split; intros H k Hk; now apply JS_in_true, H.
Qed.

(** When validation throws, the error is an [Error] whose message quotes
    the missing names, joined by a comma and a space, then names the
    pattern; the list is not empty, has each name once however often the
    pattern repeats it, keeps the order of first occurrence in the
    pattern, and holds exactly the placeholders that are neither own
    keys nor inherited names. *)
Theorem validation_error_lists_each_missing_name_once
    (U : Type) (endpoint : string) (params : JSRecord) (e : Exn U) :
  assertHasAllParams endpoint params = inl e ->
  exists missing,
    e = Error (JSString.dquote +:+ JSString.join ", " missing
               +:+ JSString.dquote +:+ " not found in endpoint: "
               +:+ endpoint) /\
    missing <> [] /\
    NoDup missing /\
    sublist missing (placeholders endpoint) /\
    forall k, k ∈ missing <->
              k ∈ placeholders endpoint /\
              (k ∉ Object_keys params) /\ (k ∉ Object_prototype_keys).
Proof.
  intros H.
  destruct (@assertHasAllParams_cases U endpoint params) as [[_ E]|[Hne E]];
    [congruence |].
  exists (missing_params endpoint params).
  split; [rewrite E in H; now injection H as <- |]. split; [assumption |].
  split; [apply missing_params_NoDup |].
  split; [apply filter_sublist |].
  intros k. rewrite missing_params_elem.
  split.
  - intros [Hk J]. split; [assumption |].
    split; intros Hin; assert (JS_in k params = true) as J'
        by (apply JS_in_true; auto); congruence.
  - intros (Hk & H1 & H2). split; [assumption |].
    destruct (JS_in k params) eqn:J; [|reflexivity].
    apply JS_in_true in J. tauto.
Qed.

(** Keys beyond the placeholders never make validation fail: a mapping
    that has all the keys of a mapping that passes, passes. *)
Theorem validation_monotone_in_keys
    (U : Type) (endpoint : string) (m m' : JSRecord) :
  (forall k, k ∈ Object_keys m -> k ∈ Object_keys m') ->
  @assertHasAllParams U endpoint m = inr tt ->
  @assertHasAllParams U endpoint m' = inr tt.
Proof.
  intros Hsub. rewrite !assertHasAllParams_passes.
  intros H k Hk. specialize (H k Hk). apply JS_in_true.
  apply JS_in_true in H as [H|H]; auto.
Qed.

Lemma match_from_colon_free (s : string) :
  colon_free s = true -> JSString.match_from None s = [].
Proof.
  induction s as [|c s IH]; simpl; [reflexivity |].
  unfold colon_free. simpl. intros H. apply andb_prop in H as [Hc H].
  apply negb_true_iff in Hc. rewrite Hc. now apply IH.
Qed.

(** A pattern without a colon has no placeholder, and passes validation
    with every mapping, the empty one included. *)
Theorem colon_free_pattern_always_validates
    (U : Type) (endpoint : string) (params : JSRecord) :
  colon_free endpoint = true ->
  placeholders endpoint = [] /\
  @assertHasAllParams U endpoint params = inr tt.
Proof.
  intros H.
  assert (placeholders endpoint = []) as E
    by (unfold placeholders, JSString.match_placeholders;
        now rewrite (match_from_colon_free _ H)).
  split; [assumption |]. apply assertHasAllParams_passes.
  intros k Hk. rewrite E in Hk. now apply elem_of_nil in Hk.
Qed.

Lemma cut_char_cons (x c : ascii) (s : string) :
  JSString.cut (String x EmptyString) (String c s) =
    if Ascii.eqb x c then Some (EmptyString, s)
    else match JSString.cut (String x EmptyString) s with
         | Some (before, after) => Some (String c before, after)
         | None => None
         end.
Proof. simpl. destruct (Ascii.eqb x c); [|reflexivity]. now destruct s. Qed.

Lemma includes_char_cons (x c : ascii) (s : string) :
  JSString.includes (String c s) (String x EmptyString) =
    Ascii.eqb x c || JSString.includes s (String x EmptyString).
Proof.
  unfold JSString.includes. rewrite cut_char_cons.
  destruct (Ascii.eqb x c); [reflexivity |].
  now destruct (JSString.cut (String x EmptyString) s) as [[? ?]|].
Qed.

(** What the scan of [s] yields with the match [m0] open: matches that
    are [m0] followed by text of [s] up to a slash, or colon-led names
    found inside [s]; none holds a slash beyond those of [m0]. *)
Lemma match_from_shape (s : string) :
  forall cur m,
    m ∈ JSString.match_from cur s ->
    (exists m0 name after,
        cur = Some m0 /\ m = m0 +:+ name /\ s = name +:+ after /\
        JSString.includes name "/" = false) \/
    (exists before name after,
        m = ":" +:+ name /\ s = before +:+ m +:+ after /\
        JSString.includes name "/" = false).
Proof.
  induction s as [|c s IH]; intros cur m Hm; simpl in Hm.
  - destruct cur as [m0|]; [|now apply elem_of_nil in Hm].
    apply list_elem_of_singleton in Hm. subst m. left.
    exists m0, EmptyString, EmptyString.
    now rewrite JSStringFacts.app_nil_r.
  - destruct cur as [m0|].
    + destruct (Ascii.eqb_spec c "/") as [->|Hc].
      * apply elem_of_cons in Hm as [->|Hm].
        -- left. exists m0, EmptyString, (String "/" s).
           now rewrite JSStringFacts.app_nil_r.
        -- apply IH in Hm as [(m1 & _ & _ & [=] & _)|(b & n & a & -> & -> & Hn)].
           right. now exists (String "/" b), n, a.
      * apply IH in Hm as [(m1 & n & a & [= <-] & -> & -> & Hn)
                          |(b & n & a & -> & -> & Hn)].
        -- left. exists m0, (String c n), a.
           rewrite JSStringFacts.app_assoc. repeat split.
           rewrite includes_char_cons, Hn.
           apply Ascii.eqb_neq in Hc. now rewrite Ascii.eqb_sym, Hc.
        -- right. now exists (String c b), n, a.
    + destruct (Ascii.eqb_spec c ":") as [->|Hc].
      * apply IH in Hm as [(m1 & n & a & [= <-] & -> & -> & Hn)
                          |(b & n & a & -> & -> & Hn)].
        -- right. now exists EmptyString, n, a.
        -- right. now exists (String ":" b), n, a.
      * apply IH in Hm as [(m1 & _ & _ & [=] & _)|(b & n & a & -> & -> & Hn)].
        right. now exists (String c b), n, a.
Qed.

(** Every placeholder name the helper extracts occurs in the pattern
    right behind a colon, and has no slash. *)
Theorem placeholder_token_occurs_in_pattern (endpoint k : string) :
  k ∈ placeholders endpoint ->
  JSString.includes endpoint (":" +:+ k) = true /\
  JSString.includes k "/" = false.
Proof.
  unfold placeholders, JSString.match_placeholders. intros H.
  apply Set_from_elem, list_elem_of_fmap in H as (m & -> & Hm).
  apply match_from_shape in Hm
    as [(m1 & _ & _ & [=] & _)|(b & n & a & -> & E & Hn)].
  simpl. split; [|assumption].
  apply JSStringFacts.includes_true. now exists b, a.
Qed.

End ValidationFacts.

(** ** The type-level check and the run-time check *)

Module TypeLevelFacts.
Import ValidationFacts.

(** The scan of the regular expression, told with [cut]: outside a match
    it jumps to the first colon, inside a match to the first slash. *)
Lemma match_from_None_cut (s : string) :
  JSString.match_from None s =
    match JSString.cut ":" s with
    | Some (_, after) => JSString.match_from (Some ":") after
    | None => []
    end.
Proof.
  induction s as [|c s IH]; [reflexivity |].
  rewrite cut_char_cons. cbn [JSString.match_from].
  rewrite (Ascii.eqb_sym ":" c).
  destruct (Ascii.eqb c ":"); [reflexivity |].
  rewrite IH. now destruct (JSString.cut ":" s) as [[? ?]|].
Qed.

Lemma match_from_Some_cut (s : string) :
  forall m,
    JSString.match_from (Some m) s =
      match JSString.cut "/" s with
      | Some (name, rest) => (m +:+ name) :: JSString.match_from None rest
      | None => [m +:+ s]
      end.
Proof.
  induction s as [|c s IH]; intros m.
  - simpl. now rewrite JSStringFacts.app_nil_r.
  - rewrite cut_char_cons. cbn [JSString.match_from].
    rewrite (Ascii.eqb_sym "/" c).
    destruct (Ascii.eqb c "/").
    + now rewrite JSStringFacts.app_nil_r.
    + rewrite IH. destruct (JSString.cut "/" s) as [[name rest]|];
        now rewrite JSStringFacts.app_assoc.
Qed.

(** With enough unfoldings allowed, the conditional type and the
    run-time scan find the same names. *)
Lemma ExtractParams_at_placeholders (depth : nat) :
  forall s k,
    String.length s < depth ->
    k ∈ ExtractParams_at depth s <->
    k ∈ map JSString.slice1 (JSString.match_from None s).
Proof.
  induction depth as [|depth IH]; intros s k Hlen; [lia |].
  cbn [ExtractParams_at]. rewrite match_from_None_cut.
  unfold infer_Start_Param_Rest, infer_Start_Param.
  destruct (JSString.cut ":" s) as [[st after]|] eqn:C1; [|reflexivity].
  rewrite match_from_Some_cut.
  destruct (JSString.cut "/" after) as [[p r]|] eqn:C2; [|reflexivity].
  simpl. rewrite !elem_of_cons.
  apply JSStringFacts.cut_Some in C1, C2.
  rewrite IH; [reflexivity |].
  subst. rewrite !JSStringFacts.length_app in Hlen. simpl in Hlen. lia.
Qed.

(** The type [ExtractParams<S>] and the run-time scan of
    [assertHasAllParams] find the same placeholder names. *)
Theorem ExtractParams_agrees_with_runtime (s k : string) :
  k ∈ ExtractParams s <-> k ∈ placeholders s.
Proof.
  unfold placeholders, JSString.match_placeholders, ExtractParams.
  rewrite Set_from_elem. apply ExtractParams_at_placeholders. lia.
Qed.

(** Allowing more unfoldings than the length of the literal changes
    nothing. *)
Lemma ExtractParams_at_stable (d1 : nat) :
  forall d2 s,
    String.length s < d1 -> String.length s < d2 ->
    ExtractParams_at d1 s = ExtractParams_at d2 s.
Proof.
  induction d1 as [|d1 IH]; intros [|d2] s H1 H2; try lia.
  cbn [ExtractParams_at]. unfold infer_Start_Param_Rest.
  destruct (JSString.cut ":" s) as [[st after]|] eqn:C1; [|reflexivity].
  destruct (JSString.cut "/" after) as [[p r]|] eqn:C2; [|reflexivity].
  apply JSStringFacts.cut_Some in C1, C2.
  assert (String.length r < String.length s) as Hr
    by (subst; rewrite !JSStringFacts.length_app; simpl; lia).
  f_equal. apply IH; lia.
Qed.

Lemma ExtractParams_at_enough (depth : nat) (s : string) :
  String.length s < depth -> ExtractParams_at depth s = ExtractParams s.
Proof. intros H. apply ExtractParams_at_stable; [assumption | lia]. Qed.

(** A pattern and a parameter type that pass the type-level check pass
    the run-time check with every mapping that has the keys of the
    type. *)
Theorem HasAllParams_implies_validation
    (U : Type) (s : string) (keyof_P : list string) (m : JSRecord) :
  HasAllParams s keyof_P = true ->
  (forall k, k ∈ keyof_P -> k ∈ Object_keys m) ->
  @assertHasAllParams U s m = inr tt.
Proof.
  unfold HasAllParams. rewrite forallb_forall. intros H Hkeys.
  apply validation_passes_iff_own_or_inherited. intros k Hk. left.
  apply Hkeys. apply ExtractParams_agrees_with_runtime in Hk.
  apply list_elem_of_In, H in Hk. now apply bool_decide_eq_true in Hk.
Qed.

End TypeLevelFacts.

(** ** Invocations: calls, failures and the URL object *)

Section InvocationFacts.

Context {ParamArg BodyArg BodyInit Response Result U Opaque : Type}.

Abbreviation Payload := (@Value BodyInit Opaque).
Abbreviation State := (@World BodyInit Opaque).

Variable transport : URL.t -> gmap string Payload -> @Promise U Response.

Variable self : @FectherInit ParamArg BodyArg BodyInit Response Result U.

(** Inversion of a run of [bind m k], as in the proofs above. *)
Tactic Notation "run_inv" hyp(H) "as" simple_intropattern(pat)
    "eqn" ident(HP) :=
  match type of H with
  | @bind ?BI ?U ?O ?A ?B ?m ?k ?w = _ =>
      change (@bind BI U O A B m k w)
        with (match m w with
              | (inr a, w') => k a w'
              | (inl e, w') => (inl e, w')
              end) in H;
      destruct (m w) as pat eqn:HP; cbv beta in H
  end.

Lemma api_entry_registered endpoint method entry (w : State) :
  registered self endpoint method entry ->
  api_entry self endpoint method w = (inr entry, w).
Proof. intros (ms & A & B). unfold api_entry. now rewrite A, B. Qed.

Lemma closure_unchanged (f : BoundFetch) (args : Args) options
    (log0 : list Call) :
  bf_url (closure (invoke transport self f args options log0)) = bf_url f ->
  closure (invoke transport self f args options log0) = f.
Proof.
  destruct (invoke_request transport self f args options log0)
    as (r & w' & _ & _ & _ & He & Hm & _).
  intros Hu. destruct (closure _), f. cbn in *. congruence.
Qed.

(** An invocation calls the transport at most once, and it returns a
    promise only after having called it: there is no retry and no result
    without a request. *)
Theorem invocation_calls_transport_at_most_once
    (f : BoundFetch) (args : Args) (options : option (gmap string Payload))
    (log0 : list Call) :
  let o := invoke transport self f args options log0 in
  (log o = log0 \/ exists call, log o = log0 ++ [call]) /\
  (forall p, completion o = inr p -> exists call, log o = log0 ++ [call]).
Proof.
  intros o. subst o.
  destruct (invoke_request transport self f args options log0)
    as (r & w' & Run & -> & _ & _ & _ & ->).
  apply request_inv in Run
    as [(_ & [e ->] & ->)|[(m & e & _ & _ & -> & ->)|(m & _ & _ & _ & Run)]];
    cbn.
  - split; [now left | discriminate].
  - split; [now left | discriminate].
  - destruct Run as [(_ & [e ->] & ->)|(payload & _ & -> & _)].
    + split; [now left | discriminate].
    + split; [right|]; eauto.
Qed.

Lemma params_phase_transform_failure endpoint method (entry : AbstractApi)
    (p : ParamArg) (e : Exn U) (w : State) :
  registered self endpoint method entry ->
  match param entry with
  | Some g => g p = inl e
  | None => e = TypeError
  end ->
  bind (api_entry self endpoint method)
    (fun entry =>
       bind (call_non_null (param entry) p)
         (fun prm =>
            bind (lift (assertHasAllParams endpoint prm))
              (fun _ => forEach (Object_entries prm) substitute))) w
    = (inl e, w).
Proof.
  intros R Hfail. unfold bind at 1.
  rewrite (api_entry_registered _ _ _ _ R). unfold bind at 1.
  unfold call_non_null. destruct (param entry) as [g|].
  - unfold lift at 1. now rewrite Hfail.
  - unfold throw. now rewrite Hfail.
Qed.

Lemma body_phase_transform_failure endpoint method (entry : AbstractApi)
    (b : BodyArg) (e : Exn U) (w : State) :
  registered self endpoint method entry ->
  match body entry with
  | Some g => g b = inl e
  | None => e = TypeError
  end ->
  bind (api_entry self endpoint method)
    (fun entry =>
       bind (call_non_null (body entry) b)
         (fun x => ret (VBody (Opaque := Opaque) x))) w
    = (inl e, w).
Proof.
  intros R Hfail. unfold bind at 1.
  rewrite (api_entry_registered _ _ _ _ R). unfold bind at 1.
  unfold call_non_null. destruct (body entry) as [g|].
  - unfold lift at 1. now rewrite Hfail.
  - unfold throw. now rewrite Hfail.
Qed.

(** When [param] is passed and the registered [param] transform throws,
    or none is registered, the invocation throws the same exception (a
    [TypeError] for the missing transform) before validation: the
    transport is not called and the closure is as it was. *)
Theorem param_transform_failure_propagates
    (f : BoundFetch) (args : Args) (options : option (gmap string Payload))
    (log0 : list Call) (entry : AbstractApi) (p : ParamArg) (e : Exn U) :
  registered self (bf_endpoint f) (bf_method f) entry ->
  arg_param args = Some p ->
  match param entry with
  | Some g => g p = inl e
  | None => e = TypeError
  end ->
  let o := invoke transport self f args options log0 in
  completion o = inl e /\ log o = log0 /\ closure o = f.
Proof.
  intros R Hp Hfail o. subst o.
  pose proof (closure_unchanged f args options log0) as Hclo.
  destruct (invoke_request transport self f args options log0)
    as (r & w' & Run & -> & Hu & _ & _ & ->).
  rewrite Hu in Hclo. clear Hu.
  unfold request in Run. rewrite Hp in Run. cbv iota beta in Run.
  run_inv Run as [[e1|[]] w1] eqn P1;
    rewrite (params_phase_transform_failure _ _ entry p e _ R Hfail) in P1;
    [|discriminate P1].
  injection P1 as <- <-. injection Run as <- <-.
  split; [reflexivity |]. split; [reflexivity | now apply Hclo].
Qed.

(** When validation has passed and the [body] transform throws, or none
    is registered for a body that is passed, the invocation throws the
    same exception and the transport is not called; the substitutions
    made for this invocation stay in the [URL] object of the closure. *)
Theorem body_transform_failure_keeps_substitutions
    (f : BoundFetch) (args : Args) (options : option (gmap string Payload))
    (log0 : list Call) (m : JSRecord) (entry : AbstractApi) (b : BodyArg)
    (e : Exn U) :
  resolves self (bf_endpoint f) (bf_method f) (arg_param args) m ->
  @assertHasAllParams U (bf_endpoint f) m = inr tt ->
  registered self (bf_endpoint f) (bf_method f) entry ->
  arg_body args = JsValue b ->
  match body entry with
  | Some g => g b = inl e
  | None => e = TypeError
  end ->
  let o := invoke transport self f args options log0 in
  completion o = inl e /\ log o = log0 /\
  bf_url (closure o) = fold_left substitute_url m (bf_url f).
Proof.
  intros Res V R Hb Hfail o. subst o.
  destruct (invoke_request transport self f args options log0)
    as (r & w' & Run & -> & -> & _ & _ & ->).
  unfold request in Run. rewrite Hb in Run. cbv iota beta in Run.
  run_inv Run as [[e1|[]] w1] eqn P1;
    apply params_phase_inv in P1
      as [(N & _)|[(m' & e' & Res' & V' & He & _)|(m' & Res' & V' & He & ->)]];
    try (exfalso; now apply (N m));
    try discriminate He;
    rewrite <- (resolves_unique _ _ _ _ _ _ Res Res') in *;
    try congruence.
  clear He V' Res'.
  run_inv Run as [[e2|v] w2] eqn P2;
    rewrite (body_phase_transform_failure _ _ entry b e _ R Hfail) in P2;
    [|discriminate P2].
  injection P2 as <- <-. injection Run as <- <-. cbn. auto.
Qed.

Lemma substitute_url_prefix (u : URL.t) (kv : string * string) :
  URL.prefix (substitute_url u kv) = URL.prefix u.
Proof.
  unfold substitute_url.
  now destruct (JSString.includes (URL.pathname u) (":" +:+ kv.1)).
Qed.

Lemma fold_substitute_url_prefix (m : JSRecord) :
  forall u, URL.prefix (fold_left substitute_url m u) = URL.prefix u.
Proof.
  induction m as [|kv m IH]; intros u; simpl; [reflexivity |].
  now rewrite IH, substitute_url_prefix.
Qed.

(** No parameter value moves a request to another origin: the part of the
    [URL] object before the path is never changed, neither in the closure
    nor in what the transport is called with. *)
Theorem requests_keep_the_origin
    (f : BoundFetch) (args : Args) (options : option (gmap string Payload))
    (log0 : list Call) :
  let o := invoke transport self f args options log0 in
  URL.prefix (bf_url (closure o)) = URL.prefix (bf_url f) /\
  forall u init, log o = log0 ++ [(u, init)] ->
                 URL.prefix u = URL.prefix (bf_url f).
Proof.
  intros o. subst o. split.
  - destruct (invoke_request transport self f args options log0)
      as (r & w' & Run & _ & -> & _).
    apply request_inv in Run
      as [(_ & _ & ->)|[(m & e & _ & _ & _ & ->)|(m & _ & _ & -> & _)]];
      [reflexivity | reflexivity |].
    apply fold_substitute_url_prefix.
  - intros u init Hlog.
    apply invoke_transport_inv in Hlog as (m & _ & _ & _ & _ & -> & _).
    apply fold_substitute_url_prefix.
Qed.

Lemma fold_substitute_url_query (m : JSRecord) :
  forall u, exists l,
    sublist l m /\
    URL.searchParams (fold_left substitute_url m u) = URL.searchParams u ++ l.
Proof.
  induction m as [|[k v] m IH]; intros u; simpl.
  - exists []. split; [constructor | now rewrite app_nil_r].
  - destruct (IH (substitute_url u (k, v))) as (l & Hl & ->).
    unfold substitute_url. cbn [fst snd].
    destruct (JSString.includes (URL.pathname u) (":" +:+ k)).
    + exists l. split; [now constructor | reflexivity].
    + exists ((k, v) :: l). split; [now constructor |].
      cbn. now rewrite <- app_assoc.
Qed.

(** The query of the closure's [URL] object only grows: an invocation
    leaves the pairs that were there in place and appends, in the order of
    the mapping, some of the mapping's entries, each at most once. *)
Theorem query_only_grows
    (f : BoundFetch) (args : Args) (options : option (gmap string Payload))
    (log0 : list Call) (m : JSRecord) :
  resolves self (bf_endpoint f) (bf_method f) (arg_param args) m ->
  exists appended,
    sublist appended m /\
    URL.searchParams (bf_url (closure (invoke transport self f args options log0)))
      = URL.searchParams (bf_url f) ++ appended.
Proof.
  intros Res.
  destruct (invoke_request transport self f args options log0)
    as (r & w' & Run & _ & -> & _).
  apply request_inv in Run
    as [(_ & _ & ->)|[(m' & e & _ & _ & _ & ->)|(m' & Res' & _ & -> & _)]].
  - exists []. split; [apply sublist_nil_l | now rewrite app_nil_r].
  - exists []. split; [apply sublist_nil_l | now rewrite app_nil_r].
  - rewrite <- (resolves_unique _ _ _ _ _ _ Res Res').
    apply fold_substitute_url_query.
Qed.

Lemma includes_token_colon (s k : string) :
  JSString.includes s ":" = false ->
  JSString.includes s (":" +:+ k) = false.
Proof.
  intros H. destruct (JSString.includes s (":" +:+ k)) eqn:I; [|reflexivity].
  apply JSStringFacts.includes_true in I as (a & b & ->).
  assert (JSString.includes (a +:+ (":" +:+ k) +:+ b) ":" = true) as I'
    by (apply JSStringFacts.includes_true; now exists a, (k +:+ b)).
  congruence.
Qed.

Lemma fold_substitute_url_colon_free (m : JSRecord) :
  forall u,
    JSString.includes (URL.pathname u) ":" = false ->
    fold_left substitute_url m u
      = URL.mk (URL.prefix u) (URL.pathname u) (URL.searchParams u ++ m).
Proof.
  induction m as [|[k v] m IH]; intros u H; simpl.
  - rewrite app_nil_r. now destruct u.
  - unfold substitute_url at 2. cbn [fst snd].
    rewrite (includes_token_colon _ k H).
    rewrite IH by exact H. cbn. now rewrite <- app_assoc.
Qed.

(** Once the path of the closure's [URL] object has no colon (a pattern
    without placeholders, or every placeholder replaced by an earlier
    invocation), every entry of the mapping is appended to the query, in
    order, and the path is left alone: the transport is called with the
    former URL and a longer query. *)
Theorem colon_free_path_sends_every_entry_to_query
    (f : BoundFetch) (args : Args) (options : option (gmap string Payload))
    (log0 : list Call) (m : JSRecord) (payload : Payload) :
  JSString.includes (URL.pathname (bf_url f)) ":" = false ->
  resolves self (bf_endpoint f) (bf_method f) (arg_param args) m ->
  @assertHasAllParams U (bf_endpoint f) m = inr tt ->
  computes_body self (bf_endpoint f) (bf_method f) (arg_body args) payload ->
  log (invoke transport self f args options log0)
    = log0 ++ [(URL.mk (URL.prefix (bf_url f)) (URL.pathname (bf_url f))
                  (URL.searchParams (bf_url f) ++ m),
                request_init (bf_method f) payload options)].
Proof.
  intros Hc Res V Cb.
  destruct (invoke_valid transport self f args options log0 m payload
              Res V Cb) as (_ & Hl & _).
  now rewrite Hl, (fold_substitute_url_colon_free _ _ Hc).
Qed.

(** An invocation without [param] does not touch the closure, and calls
    the transport, if at all, with the URL the closure holds: such
    invocations can be repeated. *)
Theorem invocation_without_param_leaves_closure
    (f : BoundFetch) (args : Args) (options : option (gmap string Payload))
    (log0 : list Call) :
  arg_param args = None ->
  let o := invoke transport self f args options log0 in
  closure o = f /\
  forall u init, log o = log0 ++ [(u, init)] -> u = bf_url f.
Proof.
  intros Hp o. subst o. split.
  - apply closure_unchanged.
    now apply invoke_without_param_keeps_url.
  - intros u init Hlog.
    apply invoke_transport_inv in Hlog as (m & _ & Res & _ & _ & -> & _).
    rewrite Hp in Res. simpl in Res. now subst m.
Qed.

End InvocationFacts.

(** ** The path of the URL object *)

Module PathFacts.
Import URL JSStringFacts URLFacts ValidationFacts.

Lemma string_forall_app (P : ascii -> bool) (a b : string) :
  string_forall P (a +:+ b) = string_forall P a && string_forall P b.
Proof.
  induction a as [|c a IH]; simpl; [reflexivity |].
  now rewrite IH, andb_assoc.
Qed.

Lemma string_forall_impl (P Q : ascii -> bool) (s : string) :
  (forall c, P c = true -> Q c = true) ->
  string_forall P s = true -> string_forall Q s = true.
Proof.
  intros H. induction s as [|c s IH]; simpl; [reflexivity |].
  intros Hs. apply andb_prop in Hs as [Hc Hs].
  now rewrite (H _ Hc), IH.
Qed.

(** What the path state puts in its buffer for a character that is not a
    separator is percent-encoded text. *)
Lemma percent_encode_encoded (c : ascii) :
  is_slash c || percent_encoded (percent_encode c) = true.
Proof. destruct c as [[] [] [] [] [] [] [] []]; reflexivity. Qed.

Lemma plain_char_facts (c : ascii) :
  plain_char c = true ->
  is_c0_or_space c = false /\ Ascii.eqb "?" c = false /\
  Ascii.eqb "#" c = false.
Proof.
  destruct c as [[] [] [] [] [] [] [] []]; vm_compute;
    intros H; try discriminate H; repeat split.
Qed.

Lemma Forall_removelast {A} (P : A -> Prop) (l : list A) :
  Forall P l -> Forall P (removelast l).
Proof.
  induction 1 as [|x l Hx Hl IH]; simpl; [constructor |].
  destruct l; [constructor | now constructor].
Qed.

Lemma close_segment_encoded (path : list string) (buffer : string) (b : bool) :
  encoded_segments path -> percent_encoded buffer = true ->
  encoded_segments (close_segment path buffer b).
Proof.
  intros Hp Hb. unfold close_segment, encoded_segments in *.
  destruct (is_double_dot buffer); [|destruct (is_single_dot buffer)];
    destruct b;
    repeat first [ assumption | apply Forall_removelast
                 | apply Forall_app; split | now constructor ].
Qed.

Lemma path_state_encoded (input : string) :
  forall path buffer,
    encoded_segments path -> percent_encoded buffer = true ->
    encoded_segments (path_state path buffer input).
Proof.
  induction input as [|c input IH]; intros path buffer Hp Hb;
    cbn [path_state].
  - now apply close_segment_encoded.
  - pose proof (percent_encode_encoded c) as Hc.
    destruct (is_slash c).
    + apply IH; [now apply close_segment_encoded | reflexivity].
    + apply IH; [assumption |].
      unfold percent_encoded in *. now rewrite string_forall_app, Hb.
Qed.

Lemma serialize_path_encoded (path : list string) :
  encoded_segments path -> percent_encoded (serialize_path path) = true.
Proof.
  induction 1 as [|x l Hx Hl IH]; simpl; [reflexivity |].
  unfold percent_encoded in *. simpl. now rewrite string_forall_app, Hx.
Qed.

Lemma set_pathname_encoded (u : t) (value : string) :
  percent_encoded (pathname (set_pathname u value)) = true.
Proof.
  unfold set_pathname, path_start_state. cbn [pathname].
  apply serialize_path_encoded.
  destruct (remove_tab_newline value) as [|c rest].
  - now apply path_state_encoded; [constructor |].
  - destruct (is_slash c); now apply path_state_encoded; [constructor |].
Qed.

Lemma new_encoded (input : string) (base u : t) :
  new input base = Some u -> percent_encoded (pathname u) = true.
Proof.
  unfold new.
  destruct (remove_tab_newline (trim_end (trim_start input))) as [|c rest];
    [discriminate |].
  destruct (negb (is_slash c)); [discriminate |].
  destruct (match rest with String d _ => is_slash d | EmptyString => false end);
    [discriminate |].
  destruct (has_query_or_fragment (String c rest)); [discriminate |].
  intros [= <-]. cbn [pathname].
  now apply serialize_path_encoded, path_state_encoded; [constructor |].
Qed.

Lemma fold_substitute_url_encoded (m : JSRecord) :
  forall u,
    percent_encoded (pathname u) = true ->
    percent_encoded (pathname (fold_left substitute_url m u)) = true.
Proof.
  induction m as [|kv m IH]; intros u H; simpl; [assumption |].
  apply IH. unfold substitute_url.
  destruct (JSString.includes (pathname u) (":" +:+ kv.1)).
  - apply set_pathname_encoded.
  - assumption.
Qed.

(** Text that is plain from the start is plain character by character. *)
Lemma plain_from_chars (s : string) :
  forall buffer, plain_from buffer s = true -> string_forall plain_char s = true.
Proof.
  induction s as [|c s IH]; intros buffer H; simpl in *; [reflexivity |].
  destruct (Ascii.eqb_spec c "/") as [->|Hc].
  - apply andb_prop in H as [_ H]. now rewrite (IH _ H).
  - apply andb_prop in H as [Hp H]. now rewrite Hp, (IH _ H).
Qed.

Lemma includes_char_none (x : ascii) (s : string) :
  string_forall (fun c => negb (Ascii.eqb x c)) s = true ->
  JSString.includes s (String x EmptyString) = false.
Proof.
  induction s as [|c s IH]; simpl; [reflexivity |].
  intros H. apply andb_prop in H as [Hc H].
  rewrite includes_char_cons, (IH H). apply negb_true_iff in Hc.
  now rewrite Hc.
Qed.

Lemma trim_end_id (s : string) :
  string_forall (fun c => negb (is_c0_or_space c)) s = true -> trim_end s = s.
Proof.
  induction s as [|c s IH]; simpl; [reflexivity |].
  intros H. apply andb_prop in H as [Hc H]. rewrite (IH H).
  apply negb_true_iff in Hc. rewrite Hc. now destruct s.
Qed.

(** Assigning a plain path that begins with a slash to [pathname] stores
    it as it is. *)
Lemma set_pathname_plain (u : t) (tail : string) :
  plain_from EmptyString tail = true ->
  set_pathname u (String "/" tail) = mk (prefix u) (String "/" tail) (searchParams u).
Proof.
  intros H. unfold set_pathname. f_equal.
  change (remove_tab_newline (String "/" tail))
    with (String "/" (remove_tab_newline tail)).
  rewrite (plain_from_no_tab _ _ H).
  change (path_start_state (String "/" tail))
    with (path_state [] EmptyString tail).
  now rewrite (path_state_plain _ _ _ H).
Qed.

(** The [URL] constructor on a plain pattern: the path is the pattern. *)
Lemma new_plain (tail : string) (base : t) :
  plain_from EmptyString tail = true ->
  tail = EmptyString \/ at_segment_end tail = false ->
  new (String "/" tail) base = Some (mk (prefix base) (String "/" tail) []).
Proof.
  intros H Hstart. unfold new.
  pose proof (plain_from_chars _ _ H) as Hchars.
  change (trim_start (String "/" tail)) with (String "/" tail).
  rewrite trim_end_id.
  2:{ apply (string_forall_impl plain_char).
      - intros c Hc. apply plain_char_facts in Hc as (-> & _). reflexivity.
      - cbn [string_forall]. now rewrite Hchars. }
  change (remove_tab_newline (String "/" tail))
    with (String "/" (remove_tab_newline tail)).
  rewrite (plain_from_no_tab _ _ H).
  change (negb (is_slash "/")) with false. cbv iota.
  assert (match tail with String d _ => is_slash d | EmptyString => false end
          = false) as ->.
  { destruct Hstart as [->|Hs]; [reflexivity |].
    destruct tail as [|d tail]; [reflexivity |]. simpl in Hs, H.
    rewrite Hs in H. apply andb_prop in H as [Hp _].
    now apply plain_char_not_slash. }
  assert (has_query_or_fragment (String "/" tail) = false) as ->.
  { assert (string_forall plain_char (String "/" tail) = true) as Hall
      by (cbn [string_forall]; now rewrite Hchars).
    unfold has_query_or_fragment.
    rewrite !includes_char_none; [reflexivity | |];
      apply (string_forall_impl plain_char); try assumption;
      intros c Hc; apply plain_char_facts in Hc as (_ & Hq & Hh);
      [now rewrite Hh | now rewrite Hq]. }
  now rewrite (path_state_plain _ _ _ H).
Qed.

(** One step of the substitution loop on a plain path, with a value that
    has no dollar sign and leaves the path plain. *)
Lemma substitute_url_plain (u : t) (key value pre rest : string) :
  pathname u = String "/" (pre +:+ (":" +:+ key) +:+ rest) ->
  (forall before after,
      pathname u = before +:+ (":" +:+ key) +:+ after ->
      String.length (String "/" pre) <= String.length before) ->
  dollar_free value = true ->
  plain_from EmptyString (pre +:+ value +:+ rest) = true ->
  substitute_url u (key, value)
    = mk (prefix u) (String "/" (pre +:+ value +:+ rest)) (searchParams u).
Proof.
  intros Hpath Hfirst Hd Hplain.
  assert (JSString.cut (":" +:+ key) (pathname u)
          = Some (String "/" pre, rest)) as Hcut.
  { rewrite Hpath.
    change (String "/" (pre +:+ (":" +:+ key) +:+ rest))
      with (String "/" pre +:+ (":" +:+ key) +:+ rest).
    apply cut_leftmost. intros b a E. apply (Hfirst b a).
    now rewrite Hpath. }
  unfold substitute_url, JSString.includes, JSString.replace. cbn [fst snd].
  rewrite Hcut, (GetSubstitution_dollar_free _ _ _ _ Hd).
  change (String "/" pre +:+ value +:+ rest)
    with (String "/" (pre +:+ value +:+ rest)).
  now apply set_pathname_plain.
Qed.

End PathFacts.

Section PathProperties.

Context {ParamArg BodyArg BodyInit Response Result U Opaque : Type}.

Abbreviation Payload := (@Value BodyInit Opaque).

Variable transport : URL.t -> gmap string Payload -> @Promise U Response.

Variable self : @FectherInit ParamArg BodyArg BodyInit Response Result U.

(** The path of the closure's [URL] object stays percent-encoded through
    every invocation, whatever the values are: when it has no character
    of the path percent-encode set (C0 controls, space, double quote,
    [#], [<], [>], [?], backquote, [{], [}], and everything above [~])
    and no backslash before an invocation, the same holds after it, of
    the closure's path and of the path of the URL the transport is called
    with. *)
Theorem path_stays_percent_encoded
    (f : BoundFetch) (args : Args) (options : option (gmap string Payload))
    (log0 : list Call) :
  percent_encoded (URL.pathname (bf_url f)) = true ->
  let o := invoke transport self f args options log0 in
  percent_encoded (URL.pathname (bf_url (closure o))) = true /\
  forall u init, log o = log0 ++ [(u, init)] ->
                 percent_encoded (URL.pathname u) = true.
Proof.
  intros H o. subst o. split.
  - destruct (invoke_request transport self f args options log0)
      as (r & w' & Run & _ & -> & _).
    apply request_inv in Run
      as [(_ & _ & ->)|[(m & e & _ & _ & _ & ->)|(m & _ & _ & -> & _)]];
      [assumption | assumption |].
    now apply PathFacts.fold_substitute_url_encoded.
  - intros u init Hlog.
    apply invoke_transport_inv in Hlog as (m & _ & _ & _ & _ & -> & _).
    now apply PathFacts.fold_substitute_url_encoded.
Qed.

(** On a plain path, a value without a dollar sign that leaves the path
    plain replaces the leftmost occurrence of its token verbatim: the
    callback of the substitution loop stores the path with the value in
    place of the token, and changes nothing else. *)
Theorem plain_value_substituted_verbatim
    (w : @World BodyInit Opaque) (key value pre rest : string) :
  URL.pathname (url w) = String "/" (pre +:+ (":" +:+ key) +:+ rest) ->
  (forall before after,
      URL.pathname (url w) = before +:+ (":" +:+ key) +:+ after ->
      String.length (String "/" pre) <= String.length before) ->
  dollar_free value = true ->
  plain_from EmptyString (pre +:+ value +:+ rest) = true ->
  substitute (U := U) (key, value) w
    = (inr tt,
       {| url := URL.mk (URL.prefix (url w))
                   (String "/" (pre +:+ value +:+ rest))
                   (URL.searchParams (url w));
          calls := calls w |}).
Proof.
  intros Hpath Hfirst Hd Hplain.
  rewrite substitute_run.
  now rewrite (PathFacts.substitute_url_plain _ _ _ _ _ Hpath Hfirst Hd Hplain).
Qed.

(** [fetch] on a plain pattern (a slash, then plain text that does not
    begin with a second slash) always returns a closure, and the path of
    its [URL] object is the pattern itself. *)
Theorem fetch_plain_pattern (tail method : string) :
  plain_from EmptyString tail = true ->
  tail = EmptyString \/ at_segment_end tail = false ->
  fetch self (String "/" tail) method
    = Some {| bf_endpoint := String "/" tail; bf_method := method;
              bf_url := URL.mk (URL.prefix (baseUrl self))
                          (String "/" tail) [] |}.
Proof.
  intros H Hs. unfold fetch. now rewrite (PathFacts.new_plain _ _ H Hs).
Qed.


End PathProperties.

(** ** The further properties on the registry of the test *)

Module MoreWitnesses.
Import TestRegistry.

Lemma validation_error_lists_each_missing_name_once_witness :
  exists missing,
    (Error (missing_message ["id"; "x"] "/a/:id/b/:id/:x") : Exn Empty_set)
      = Error (JSString.dquote +:+ JSString.join ", " missing
               +:+ JSString.dquote +:+ " not found in endpoint: "
               +:+ "/a/:id/b/:id/:x") /\
    missing <> [] /\
    NoDup missing /\
    sublist missing (placeholders "/a/:id/b/:id/:x") /\
    forall k, k ∈ missing <->
              k ∈ placeholders "/a/:id/b/:id/:x" /\
              (k ∉ Object_keys []) /\ (k ∉ Object_prototype_keys).
Proof.
  apply (ValidationFacts.validation_error_lists_each_missing_name_once
           Empty_set "/a/:id/b/:id/:x" []).
  reflexivity.
Defined.

Lemma validation_monotone_in_keys_witness :
  @assertHasAllParams Empty_set "/users/:id" [("v", "1"); ("id", "1")]
    = inr tt.
Proof.
  apply (ValidationFacts.validation_monotone_in_keys Empty_set "/users/:id"
           [("id", "1")] [("v", "1"); ("id", "1")]).
  - intros k Hk. apply list_elem_of_singleton in Hk. subst k.
    right. left.
  - reflexivity.
Defined.

Lemma colon_free_pattern_always_validates_witness :
  placeholders "/health" = [] /\
  @assertHasAllParams Empty_set "/health" [("verbose", "1")] = inr tt.
Proof.
  apply (ValidationFacts.colon_free_pattern_always_validates Empty_set
           "/health" [("verbose", "1")]).
  reflexivity.
Defined.

Lemma placeholder_token_occurs_in_pattern_witness :
  JSString.includes "/users/:id/online" (":" +:+ "id") = true /\
  JSString.includes "id" "/" = false.
Proof.
  apply (ValidationFacts.placeholder_token_occurs_in_pattern
           "/users/:id/online" "id").
  vm_compute. left.
Defined.

Lemma HasAllParams_implies_validation_witness :
  @assertHasAllParams Empty_set "/users/:id" [("id", "1"); ("v", "1")]
    = inr tt.
Proof.
  apply (TypeLevelFacts.HasAllParams_implies_validation Empty_set
           "/users/:id" ["id"; "v"] [("id", "1"); ("v", "1")]).
  - reflexivity.
  - intros k Hk. exact Hk.
Defined.

Lemma param_transform_failure_propagates_witness :
  let f := bound "/users/:id" "GET" in
  let o := invoke (stub "r") (plain_route "/users/:id") f
             (args (Some [("id", Str "1")]) JsUndefined) no_options [] in
  completion o = inl TypeError /\ log o = [] /\ closure o = f.
Proof.
  apply (param_transform_failure_propagates (stub "r")
           (plain_route "/users/:id") (bound "/users/:id" "GET")
           (args (Some [("id", Str "1")]) JsUndefined) no_options []
           {| param := None; body := None; response := text |}
           [("id", Str "1")] TypeError).
  - eexists. split; reflexivity.
  - reflexivity.
  - reflexivity.
Defined.

Lemma body_transform_failure_keeps_substitutions_witness :
  let f := bound "/users/:id" "GET" in
  let o := invoke (stub "r") fetcher f
             (args (Some [("id", Str "1")]) (JsValue [("name", Str "hoge")]))
             no_options [] in
  completion o = inl TypeError /\ log o = [] /\
  bf_url (closure o)
    = fold_left substitute_url [("id", "1"); ("v", "undefined")] (bf_url f).
Proof.
  apply (body_transform_failure_keeps_substitutions (stub "r") fetcher
           (bound "/users/:id" "GET")
           (args (Some [("id", Str "1")]) (JsValue [("name", Str "hoge")]))
           no_options [] [("id", "1"); ("v", "undefined")] users_id_GET
           [("name", Str "hoge")]
           TypeError).
  - eexists _, _. split; [eexists; split; reflexivity | split; reflexivity].
  - reflexivity.
  - eexists. split; reflexivity.
  - reflexivity.
  - reflexivity.
Defined.

Lemma query_only_grows_witness :
  exists appended,
    sublist appended [("id", "1"); ("v", "1")] /\
    URL.searchParams
      (bf_url (closure (invoke (stub "r") fetcher (bound "/users/:id" "GET")
                          (args (Some [("id", Str "1"); ("v", Num 1)])
                             JsUndefined)
                          no_options [])))
      = URL.searchParams (bf_url (bound "/users/:id" "GET")) ++ appended.
Proof.
  apply (query_only_grows (stub "r") fetcher (bound "/users/:id" "GET")
           (args (Some [("id", Str "1"); ("v", Num 1)]) JsUndefined)
           no_options [] [("id", "1"); ("v", "1")]).
  eexists _, _. split; [eexists; split; reflexivity | split; reflexivity].
Defined.

(** The closure for ["/users/:id"] after one invocation with
    [{id: "1", v: 1}]. *)
Lemma colon_free_path_sends_every_entry_to_query_witness :
  let f := {| bf_endpoint := "/users/:id"; bf_method := "GET";
              bf_url := URL.mk "https://api.example.com" "/users/1"
                          [("v", "1")] |} in
  log (invoke (stub "r") fetcher f
         (args (Some [("id", Str "1"); ("v", Num 1)]) JsUndefined)
         no_options [])
    = [] ++ [(URL.mk "https://api.example.com" "/users/1"
                ([("v", "1")] ++ [("id", "1"); ("v", "1")]),
              request_init "GET" VUndefined no_options)].
Proof.
  apply (colon_free_path_sends_every_entry_to_query (stub "r") fetcher
           {| bf_endpoint := "/users/:id"; bf_method := "GET";
              bf_url := URL.mk "https://api.example.com" "/users/1"
                          [("v", "1")] |}
           (args (Some [("id", Str "1"); ("v", Num 1)]) JsUndefined)
           no_options [] [("id", "1"); ("v", "1")] VUndefined).
  - reflexivity.
  - eexists _, _. split; [eexists; split; reflexivity | split; reflexivity].
  - reflexivity.
  - reflexivity.
Defined.

Lemma invocation_without_param_leaves_closure_witness :
  let f := bound "/health" "GET" in
  let o := invoke (stub "r") (plain_route "/health") f
             (args None JsUndefined) no_options [] in
  closure o = f /\
  forall u init, log o = [] ++ [(u, init)] -> u = bf_url f.
Proof.
  apply (invocation_without_param_leaves_closure (stub "r")
           (plain_route "/health") (bound "/health" "GET")
           (args None JsUndefined) no_options []).
  reflexivity.
Defined.

Lemma path_stays_percent_encoded_witness :
  let o := invoke (stub "r") fetcher (bound "/users/:id" "GET")
             (args (Some [("id", Str "a b?c#d")]) JsUndefined)
             no_options [] in
  percent_encoded (URL.pathname (bf_url (closure o))) = true /\
  forall u init, log o = [] ++ [(u, init)] ->
                 percent_encoded (URL.pathname u) = true.
Proof.
  apply (path_stays_percent_encoded (stub "r") fetcher
           (bound "/users/:id" "GET")
           (args (Some [("id", Str "a b?c#d")]) JsUndefined) no_options []).
  reflexivity.
Defined.

Lemma plain_value_substituted_verbatim_witness :
  substitute (U := Empty_set) ("id", "1")
    {| url := URL.mk "https://api.example.com" "/users/:id/online" [];
       calls := @nil (@Call string Empty_set) |}
    = (inr tt,
       {| url := URL.mk "https://api.example.com" "/users/1/online" [];
          calls := [] |}).
Proof.
  apply (plain_value_substituted_verbatim (U := Empty_set)
           {| url := URL.mk "https://api.example.com" "/users/:id/online" [];
              calls := @nil (@Call string Empty_set) |}
           "id" "1" "users/" "/online").
  - reflexivity.
  - intros before after E. cbn in E.
    do 7 (destruct before as [|? before]; [discriminate E |]).
    cbn. lia.
  - reflexivity.
  - reflexivity.
Defined.

Lemma fetch_plain_pattern_witness :
  fetch fetcher "/users/:id/online" "GET"
    = Some {| bf_endpoint := "/users/:id/online"; bf_method := "GET";
              bf_url := URL.mk (URL.prefix (baseUrl fetcher))
                          "/users/:id/online" [] |}.
Proof.
  apply (fetch_plain_pattern fetcher "users/:id/online" "GET").
  - reflexivity.
  - right. reflexivity.
Defined.


End MoreWitnesses.

(** ** Repeated placeholders *)

Section RepeatedPlaceholder.

Context {ParamArg BodyArg BodyInit Response Result U Opaque : Type}.

Abbreviation Payload := (@Value BodyInit Opaque).

Variable transport : URL.t -> gmap string Payload -> @Promise U Response.

Variable self : @FectherInit ParamArg BodyArg BodyInit Response Result U.



End RepeatedPlaceholder.

Module RepeatedPlaceholderWitness.
Import TestRegistry.


End RepeatedPlaceholderWitness.
